(** * Conway's Game of Life: the generation engine of [gol]

    A shallow embedding of the classes [Cell] and [Generation] of the
    repository's main script, and the properties of the generation
    update that its specification states.

    Conventions of the embedding.
    - JavaScript numbers that hold grid coordinates, dimensions and array
      indices are integers ([Z]); [NaN] is kept as a separate constructor
      where a caller can pass it (the constructor's options).  Fractions
      and infinities are outside the model.
    - [alive] and [nextAlive] hold a boolean or [undefined]: [nextAlive]
      is not declared by the class and is [undefined] until the first
      transition writes it.
    - Reading a property of [undefined] throws a [TypeError]; functions
      that can do so return a [result].
    - [Math.random() > 0.5] is one draw from a sequence of booleans that
      is threaded through the functions that construct cells.
    - [Game] is modelled with the controllers, timeouts and renderer
      calls it acts on; [Renderer] and [CanvasRenderer] with the values
      they compute and the calls they make on the 2D context.  What
      [CanvasRenderer] reads off the window and the canvas is outside the
      model. *)

From Stdlib Require Import ZArith Lia.
From stdpp Require Import base option list strings.

Local Open Scope Z_scope.

(** ** Errors and results *)

Inductive error := TypeError.

Inductive result (A : Type) :=
| Ok (a : A)
| Throw (e : error).
Arguments Ok {A} a.
Arguments Throw {A} e.

Definition bind {A B} (m : result A) (k : A -> result B) : result B :=
  match m with
  | Ok a => k a
  | Throw e => Throw e
  end.

Notation "x <- m ;; k" := (bind m (fun x => k))
  (at level 20, m at level 99, k at level 200, right associativity).

(** ** Values *)

(** The values an [alive] or [nextAlive] field can hold. *)
Inductive value :=
| undefined
| boolean (b : bool).

(** JavaScript truthiness, as used by [c.alive ? 1 : 0]. *)
Definition truthy (v : value) : bool :=
  match v with
  | boolean b => b
  | undefined => false
  end.

(** The numbers a caller can pass as a grid dimension. *)
Inductive number :=
| NaN
| Int (z : Z).

(** A field of the options object: [None] is an absent (undefined) field.
    [if (rows)] takes the branch for every number but 0 and [NaN]. *)
Definition truthy_field (f : option number) : bool :=
  match f with
  | Some (Int z) => negb (z =? 0)
  | Some NaN => false
  | None => false
  end.

(** ** Loops *)

(** [for (let i = start; ...; i++) body], run [n] times. *)
Fixpoint iter_from {St : Type} (n : nat) (i : Z) (body : Z -> St -> St) (s : St) : St :=
  match n with
  | O => s
  | S n' => iter_from n' (i + 1) body (body i s)
  end.

(** [for (let i = 0; i < bound; i++) body]; the bodies of this program
    never write the bound. *)
Definition for_lt {St : Type} (bound : Z) (body : Z -> St -> St) (s : St) : St :=
  iter_from (Z.to_nat bound) 0 body s.

(** The same loop with a body that can throw: the first exception leaves
    the loop. *)
Fixpoint iterM_from {St : Type} (n : nat) (i : Z) (body : Z -> St -> result St) (s : St)
  : result St :=
  match n with
  | O => Ok s
  | S n' => s' <- body i s ;; iterM_from n' (i + 1) body s'
  end.

Definition forM_lt {St : Type} (bound : Z) (body : Z -> St -> result St) (s : St)
  : result St :=
  iterM_from (Z.to_nat bound) 0 body s.

(** ** class Cell *)

Record Cell := mkCell {
  gridX : Z;
  gridY : Z;
  alive : value;
  nextAlive : value
}.

Definition set_alive (v : value) (c : Cell) : Cell :=
  mkCell (gridX c) (gridY c) v (nextAlive c).

Definition set_nextAlive (v : value) (c : Cell) : Cell :=
  mkCell (gridX c) (gridY c) (alive c) v.

(** The outcomes of the successive evaluations of [Math.random() > 0.5]. *)
Definition rng := nat -> bool.

(** [new Cell(gridX, gridY)]: one draw decides [alive]. *)
Definition Cell_new (x y : Z) (r : rng) : Cell * rng :=
  (mkCell x y (boolean (r O)) undefined, fun n => r (S n)).

(** ** class Generation *)

Record Generation := mkGeneration {
  columns : Z;
  rows : Z;
  cells : list Cell
}.

Definition set_cells (cs : list Cell) (g : Generation) : Generation :=
  mkGeneration (columns g) (rows g) cs.

(** The options object [{rows, columns}] handed to the constructor. *)
Record Options := mkOptions {
  opt_rows : option number;
  opt_columns : option number
}.

Definition field_value (f : option number) (default : Z) : Z :=
  match f with
  | Some (Int z) => z
  | _ => default
  end.

(** [new Generation(options)].  The argument is [None] when the caller
    passes no object: destructuring [undefined] throws.  The class fields
    initialise [columns] and [rows] to 50 and [cells] to the empty array;
    each is overwritten only by a truthy option. *)
Definition constructor (options : option Options) : result Generation :=
  match options with
  | None => Throw TypeError
  | Some o =>
      let rows' := if truthy_field (opt_rows o) then field_value (opt_rows o) 50 else 50 in
      let columns' :=
        if truthy_field (opt_columns o) then field_value (opt_columns o) 50 else 50 in
      Ok (mkGeneration columns' rows' [])
  end.

(** [createGrid]: rows outermost, one [push] per coordinate pair. *)
Definition createGrid (g : Generation) (r : rng) : Generation * rng :=
  for_lt (rows g)
    (fun y s =>
       for_lt (columns g)
         (fun x s =>
            let '(c, r') := Cell_new x y (snd s) in
            (set_cells (cells (fst s) ++ [c]) (fst s), r'))
         s)
    (g, r).

Definition gridToIndex (g : Generation) (x y : Z) : Z :=
  x + y * columns g.

(** [this.cells[i]]: [None] stands for [undefined], which is what an
    index outside the array reads. *)
Definition cells_at (cs : list Cell) (i : Z) : option Cell :=
  if i <? 0 then None else cs !! Z.to_nat i.

(** Reading or writing a property of [this.cells[i]]. *)
Definition cell_ref (cs : list Cell) (i : Z) : result Cell :=
  match cells_at cs i with
  | Some c => Ok c
  | None => Throw TypeError
  end.

Definition isAlive (g : Generation) (x y : Z) : result Z :=
  if (x <? 0) || (x >=? columns g) || (y <? 0) || (y >=? rows g) then Ok 0
  else
    c <- cell_ref (cells g) (gridToIndex g x y) ;;
    Ok (if truthy (alive c) then 1 else 0).

(** The sum [countAlive] of [updateNextGenCellsAlive], operands in the
    order of the source. *)
Definition countAlive (g : Generation) (x y : Z) : result Z :=
  a <- isAlive g (x - 1) (y - 1) ;;
  b <- isAlive g x (y - 1) ;;
  c <- isAlive g (x + 1) (y - 1) ;;
  d <- isAlive g (x - 1) y ;;
  e <- isAlive g (x + 1) y ;;
  f <- isAlive g (x - 1) (y + 1) ;;
  h <- isAlive g x (y + 1) ;;
  i <- isAlive g (x + 1) (y + 1) ;;
  Ok (a + b + c + d + e + f + h + i).

(** The [switch (countAlive)] of the transition. *)
Definition rule (n : Z) (current : value) : value :=
  if n =? 2 then current
  else if n =? 3 then boolean true
  else boolean false.

(** The body of the inner loop: count, then write [nextAlive] of the
    centre cell in place. *)
Definition computeNextAlive (x y : Z) (g : Generation) : result Generation :=
  n <- countAlive g x y ;;
  let centerIndex := gridToIndex g x y in
  c <- cell_ref (cells g) centerIndex ;;
  Ok (set_cells (<[Z.to_nat centerIndex := set_nextAlive (rule n (alive c)) c]> (cells g)) g).

(** The two nested loops: columns outermost. *)
Definition computePhase (g : Generation) : result Generation :=
  forM_lt (columns g)
    (fun x g1 => forM_lt (rows g1) (fun y g2 => computeNextAlive x y g2) g1)
    g.

(** [this.cells.forEach(cell => cell.alive = cell.nextAlive)]. *)
Definition commitPhase (g : Generation) : Generation :=
  set_cells (map (fun c => set_alive (nextAlive c) c) (cells g)) g.

Definition updateNextGenCellsAlive (g : Generation) : result Generation :=
  g1 <- computePhase g ;;
  Ok (commitPhase g1).

(** [next]: a non-empty [cells] array is advanced, an empty one is
    populated. *)
Definition next (g : Generation) (r : rng) : result (Generation * rng) :=
  if negb (length (cells g) =? 0)%nat then
    g' <- updateNextGenCellsAlive g ;;
    Ok (g', r)
  else Ok (createGrid g r).

(** ** The grid of a populated generation *)

Definition coordinates (c : Cell) : Z * Z := (gridX c, gridY c).

(** The coordinate pairs of a [columns] by [rows] grid, rows outermost. *)
Definition row_major (columns rows : Z) : list (Z * Z) :=
  flat_map (fun y => map (fun x => (x, y)) (seqZ 0 columns)) (seqZ 0 rows).

(** A generation whose grid has been built: positive dimensions and one
    cell per coordinate pair, laid out as [createGrid] pushes them. *)
Definition populated (g : Generation) : Prop :=
  0 < columns g /\ 0 < rows g /\
  map coordinates (cells g) = row_major (columns g) (rows g).

(** [cellAt(x, y)]: the cell stored at index [x + y * columns]. *)
Definition cellAt (g : Generation) (x y : Z) : option Cell :=
  cells_at (cells g) (gridToIndex g x y).

Definition in_grid (g : Generation) (x y : Z) : Prop :=
  0 <= x < columns g /\ 0 <= y < rows g.

(** The alive/dead pattern of a generation, in array order. *)
Definition pattern (g : Generation) : list value := map alive (cells g).

Definition all_dead (g : Generation) : Prop :=
  Forall (fun c => alive c = boolean false) (cells g).

(** [n] calls of [next]. *)
Fixpoint advance (n : nat) (g : Generation) (r : rng) : result (Generation * rng) :=
  match n with
  | O => Ok (g, r)
  | S n' => s <- next g r ;; advance n' (fst s) (snd s)
  end.

(** ** The transition as the specification words it *)

(** Whether the cell at a position counts as alive in a snapshot:
    positions off the grid are dead. *)
Definition aliveAt (g : Generation) (x y : Z) : bool :=
  if (0 <=? x) && (x <? columns g) && (0 <=? y) && (y <? rows g) then
    match cellAt g x y with
    | Some c => truthy (alive c)
    | None => false
    end
  else false.

(** The eight positions of the Moore neighbourhood, as offsets. *)
Definition moore : list (Z * Z) :=
  [(-1, -1); (0, -1); (1, -1); (-1, 0); (1, 0); (-1, 1); (0, 1); (1, 1)].

Definition neighborAliveCount (g : Generation) (x y : Z) : Z :=
  foldr (fun d acc => (if aliveAt g (x + fst d) (y + snd d) then 1 else 0) + acc)
    0 moore.

(** One simultaneous step: every cell is rewritten from the same prior
    generation [g]. *)
Definition snapshotCell (g : Generation) (c : Cell) : Cell :=
  let v := rule (neighborAliveCount g (gridX c) (gridY c)) (alive c) in
  mkCell (gridX c) (gridY c) v v.

Definition snapshotAdvance (g : Generation) : Generation :=
  set_cells (map (snapshotCell g) (cells g)) g.

(** ** Grids of the right size *)

(** What the transition needs of a grid: positive dimensions and exactly
    [columns * rows] cells. *)
Definition sized (g : Generation) : Prop :=
  0 < columns g /\ 0 < rows g /\ Z.of_nat (length (cells g)) = columns g * rows g.

(** ** The state of the compute phase *)

(** The state of the compute phase relative to the generation [g0] it
    started from: nothing but [nextAlive] fields differs, and the cells
    at the positions in [D] already hold their next state, computed from
    [g0]. *)
Definition computed (g0 : Generation) (D : Z -> Z -> Prop) (g : Generation) : Prop :=
  columns g = columns g0 /\ rows g = rows g0 /\
  pattern g = pattern g0 /\
  map coordinates (cells g) = map coordinates (cells g0) /\
  forall x y c, in_grid g0 x y -> D x y -> cellAt g x y = Some c ->
                nextAlive c = rule (neighborAliveCount g0 x y) (alive c).

(** ** Particular grids *)

Definition all_alive (g : Generation) : Prop :=
  Forall (fun c => truthy (alive c) = true) (cells g).

(** A grid given by its pattern, for concrete scenarios. *)
Definition seeded (columns rows : Z) (p : list bool) : Generation :=
  mkGeneration columns rows
    (zip_with (fun xy b => mkCell (fst xy) (snd xy) (boolean b) undefined)
       (row_major columns rows) p).

(** Two grids used as concrete inputs. *)
Definition blinker_horizontal : Generation :=
  seeded 3 3 [false; false; false;  true; true; true;  false; false; false].

Definition single_alive : Generation := seeded 1 1 [true].

Definition coin : rng := Nat.even.

Definition negb_coin : rng := Nat.odd.

(** The alive cells of [g] are exactly the cells of its grid at which
    [P] holds. *)
Definition alive_exactly (g : Generation) (P : Z -> Z -> bool) : Prop :=
  forall x y, in_grid g x y ->
    exists c, cellAt g x y = Some c /\ alive c = boolean (P x y).

(** ** Cells as [createGrid] makes them *)


(** Every [alive] field holds a boolean. *)
Definition booleans (g : Generation) : Prop :=
  Forall (fun c => exists b, alive c = boolean b) (cells g).

(** Two generations agree around [(x, y)]: the cells of the grid at
    distance at most one from it hold the same [alive]. *)
Definition agree_around (g1 g2 : Generation) (x y : Z) : Prop :=
  forall u v, in_grid g1 u v -> x - 1 <= u <= x + 1 -> y - 1 <= v <= y + 1 ->
    alive <$> cellAt g1 u v = alive <$> cellAt g2 u v.

(** The shape of a generation: what no iteration of the compute phase
    changes. *)
Definition same_shape (g h : Generation) : Prop :=
  columns h = columns g /\ rows h = rows g /\ length (cells h) = length (cells g).

(** ** class Game *)

(** The game is modelled with what it acts on: the [AbortController]s its
    [start] creates (a controller and its signal are one identity, the
    position of its [aborted] flag in the list), the delays it passes to
    [setTimeout] and the random draws.  The renderer is kept as the list
    of calls the game makes on it; a cell handed to [drawCell] is
    recorded as it is at the call.  The canvas set-up of the
    [CanvasRenderer] constructor is outside the model. *)

Inductive exception :=
| Error (message : string)
| Uncaught (e : error).

(** The result of a method that can throw before it has changed
    anything. *)
Inductive outcome (A : Type) :=
| Returned (a : A)
| Thrown (e : exception).
Arguments Returned {A} a.
Arguments Thrown {A} e.

Inductive renderer_call :=
| ClearArea
| DrawCell (c : Cell)
| ProvideAnimationFrame.

(** The input element that shows the iteration count: [None] until the
    game writes its [value]. *)
Record HTMLInputElement := mkInput {
  input_value : option Z
}.

Record GameOptions := mkGameOptions {
  game_rows : option number;
  game_columns : option number;
  game_iterationCountControl : option HTMLInputElement
}.

Record Game := mkGame {
  renderer : list renderer_call;
  generation : Generation;
  signal : option nat;
  controller : option nat;
  interval : Z;
  iterationCount : Z;
  iterationCountControl : option HTMLInputElement
}.

Record Page := mkPage {
  game : Game;
  controllers : list bool;
  timeouts : list Z;
  random : rng
}.

(** [new Game(canvas, options = {})].  [canvas] is [None] for a missing
    node and the [tagName] of the node otherwise. *)
Definition Game_new (canvas : option string) (options : option GameOptions)
  : outcome Game :=
  match canvas with
  | None => Thrown (Error "Canvas does not exist or not valid node type")
  | Some tagName =>
      if negb (String.eqb tagName "CANVAS") then
        Thrown (Error "Canvas does not exist or not valid node type")
      else
        let o := default (mkGameOptions None None None) options in
        match constructor (Some (mkOptions (game_rows o) (game_columns o))) with
        | Ok g => Returned (mkGame [] g None None 100 0 (game_iterationCountControl o))
        | Throw e => Thrown (Uncaught e)
        end
  end.

(** [signal.aborted] of the controller [id]. *)
Definition aborted (p : Page) (id : nat) : bool :=
  default false (controllers p !! id).

(** [controller.abort()], as [stop] calls it and as the caller that holds
    the controller returned by [start] can. *)
Definition abort (id : nat) (p : Page) : Page :=
  mkPage (game p) (<[id := true]> (controllers p)) (timeouts p) (random p).

Definition start (p : Page) : outcome nat * Page :=
  let g := game p in
  if match signal g with
     | Some id => negb (aborted p id)
     | None => false
     end
  then (Thrown (Error "Game is running and not be started. Stop it first."), p)
  else
    let id := length (controllers p) in
    (Returned id,
     mkPage
       (mkGame (renderer g ++ [ProvideAnimationFrame]) (generation g)
          (Some id) (Some id) (interval g) (iterationCount g)
          (iterationCountControl g))
       (controllers p ++ [false]) (timeouts p) (random p)).

Definition stop (p : Page) : outcome unit * Page :=
  match controller (game p) with
  | None => (Thrown (Error "Game is not running"), p)
  | Some id => (Returned tt, abort id p)
  end.

(** [nextIteration]: nothing when the signal is aborted; otherwise the
    area is cleared, the generation advanced, every cell drawn, and the
    count incremented and shown. *)
Definition nextIteration (p : Page) : result Page :=
  let g := game p in
  if match signal g with
     | Some id => aborted p id
     | None => false
     end
  then Ok p
  else
    s <- next (generation g) (random p) ;;
    let count := iterationCount g + 1 in
    Ok (mkPage
          (mkGame
             (renderer g ++ ClearArea :: map DrawCell (cells (fst s)))
             (fst s) (signal g) (controller g) (interval g) count
             (match iterationCountControl g with
              | Some _ => Some (mkInput (Some count))
              | None => None
              end))
          (controllers p) (timeouts p) (snd s)).

(** The callback [loop] of [start]: one iteration, then the callback is
    armed again. *)
Definition loop (p : Page) : result Page :=
  p' <- nextIteration p ;;
  Ok (mkPage (game p') (controllers p') (timeouts p' ++ [interval (game p')])
        (random p')).

(** What can happen to a game: its methods are called, a scheduled
    callback fires, or a holder of a controller aborts it.  An [Error]
    thrown by [start] or [stop] leaves the game as it was. *)
Inductive event :=
| CallStart
| CallStop
| CallNextIteration
| FireLoop
| CallAbort (id : nat).

Definition step (e : event) (p : Page) : result Page :=
  match e with
  | CallStart => Ok (snd (start p))
  | CallStop => Ok (snd (stop p))
  | CallNextIteration => nextIteration p
  | FireLoop => loop p
  | CallAbort id => Ok (abort id p)
  end.

Fixpoint run (es : list event) (p : Page) : result Page :=
  match es with
  | [] => Ok p
  | e :: es' => p' <- step e p ;; run es' p'
  end.

(** The game is running: its current controller is not aborted. *)
Definition running (p : Page) : Prop :=
  exists id, controller (game p) = Some id /\ controllers p !! id = Some false.

(** What every page reached from a new game satisfies. *)
Definition coherent (p : Page) : Prop :=
  signal (game p) = controller (game p) /\
  (forall id, controller (game p) = Some id -> (id < length (controllers p))%nat) /\
  (forall j, (j < length (controllers p))%nat -> controller (game p) <> Some j ->
             controllers p !! j = Some true) /\
  (cells (generation (game p)) = [] \/ populated (generation (game p))) /\
  booleans (generation (game p)) /\
  Forall (fun c => match c with
                   | DrawCell c => exists b, alive c = boolean b
                   | _ => True
                   end) (renderer (game p)).

(** The page of a game that has just been built. *)
Definition new_page (g : Game) (r : rng) : Page := mkPage g [] [] r.

(** The count of a game that started from the generation [g0] and the
    draws [r0]: its generation is [g0] advanced [iterationCount] times,
    and the input element, once written, shows the count. *)
Definition counted (g0 : Generation) (r0 : rng) (p : Page) : Prop :=
  0 <= iterationCount (game p) /\
  advance (Z.to_nat (iterationCount (game p))) g0 r0
  = Ok (generation (game p), random p) /\
  forall el, iterationCountControl (game p) = Some el ->
             0 < iterationCount (game p) ->
             input_value el = Some (iterationCount (game p)).

(** ** class Renderer and class CanvasRenderer *)

(** A cell size: the result of [Math.ceil(size / count)].  For integer
    areas and counts below 2^53 in absolute value the quotient of the
    doubles never rounds across an integer, so that the result is the
    ceiling of the exact quotient; the properties that depend on the
    value of a cell size, and not only on its being finite, state that
    bound.  A zero count gives an infinity and a missing one [NaN]. *)
Inductive size :=
| SNaN
| SInfinity (negative : bool)
| SFinite (z : Z).

(** [Math.ceil(a / b)], [b] being a field of an options object. *)
Definition ceil_quotient (a : Z) (b : option number) : size :=
  match b with
  | None => SNaN
  | Some NaN => SNaN
  | Some (Int 0) => if a =? 0 then SNaN else SInfinity (a <? 0)
  | Some (Int c) => SFinite (- ((- a) / c))
  end.

(** [k * s] for an integer [k]; exact as long as the product stays
    within 2^53, which the properties that depend on it state. *)
Definition scale (k : Z) (s : size) : size :=
  match s with
  | SNaN => SNaN
  | SInfinity negative =>
      if k =? 0 then SNaN else SInfinity (xorb negative (k <? 0))
  | SFinite z => SFinite (k * z)
  end.

Record RenderOptions := mkRenderOptions {
  ro_rows : option number;
  ro_columns : option number;
  ro_width : option number;
  ro_height : option number
}.

Record Renderer := mkRenderer {
  colors_true : string;
  colors_false : string;
  cell_width : size;
  cell_height : size;
  area_width : Z;
  area_height : Z;
  grid_columns : Z;
  grid_rows : Z
}.

(** [new Renderer(options)]: the class fields, each area field
    overwritten by a truthy option, then [calcCellSizes] on the
    [columns] and [rows] of the options as they were passed. *)
Definition Renderer_new (o : RenderOptions) : Renderer :=
  let width := if truthy_field (ro_width o) then field_value (ro_width o) 600 else 600 in
  let height :=
    if truthy_field (ro_height o) then field_value (ro_height o) 600 else 600 in
  let columns := if truthy_field (ro_columns o) then field_value (ro_columns o) 0 else 0 in
  let rows := if truthy_field (ro_rows o) then field_value (ro_rows o) 0 else 0 in
  mkRenderer "#3b4859" "#dde2e9"
    (ceil_quotient width (ro_columns o)) (ceil_quotient height (ro_rows o))
    width height columns rows.

(** The calls a [CanvasRenderer] makes on its 2D context. *)
Inductive context_call :=
| SetFillStyle (style : option string)
| FillRect (x y w h : size)
| ClearRect (x y w h : size).

(** [this.cell.colors[cell.alive]]: the palette has the keys [true] and
    [false] only. *)
Definition color (rd : Renderer) (v : value) : option string :=
  match v with
  | boolean true => Some (colors_true rd)
  | boolean false => Some (colors_false rd)
  | undefined => None
  end.

(** [CanvasRenderer.drawCell(cell)]. *)
Definition CanvasRenderer_drawCell (rd : Renderer) (c : Cell) : list context_call :=
  [SetFillStyle (color rd (alive c));
   FillRect (scale (gridX c) (cell_width rd)) (scale (gridY c) (cell_height rd))
     (cell_width rd) (cell_height rd)].

(** [CanvasRenderer.clearArea()]. *)
Definition CanvasRenderer_clearArea (rd : Renderer) : list context_call :=
  [ClearRect (SFinite 0) (SFinite 0) (SFinite (area_width rd)) (SFinite (area_height rd))].

(** The pixel [(px, py)] lies in the rectangle of a [fillRect] call. *)
Definition fills (call : context_call) (px py : Z) : Prop :=
  match call with
  | FillRect (SFinite x) (SFinite y) (SFinite w) (SFinite h) =>
      x <= px < x + w /\ y <= py < y + h
  | _ => False
  end.

(** ** The page *)

(** [Number(v) || 100]: the number read from an input, or the default
    when it is 0 or [NaN]. *)
Definition or_default (n : number) (d : Z) : number :=
  if truthy_field (Some n) then n else Int d.

(** [buildGameOptions], from the numbers read off the two inputs and the
    element found for the count. *)
Definition buildGameOptions (rows columns : number)
    (iterationCount : option HTMLInputElement) : GameOptions :=
  mkGameOptions (Some (or_default rows 100)) (Some (or_default columns 100))
    iterationCount.

(** [drawCell] of the cell [c] fills the pixel [(px, py)]. *)
Definition paints (rd : Renderer) (c : Cell) (px py : Z) : Prop :=
  Exists (fun call => fills call px py) (CanvasRenderer_drawCell rd c).

(** * Properties *)

(** Case analysis on the integer comparisons of a goal. *)
Ltac zbool :=
  repeat match goal with
    | |- context [?a <? ?b] => destruct (Z.ltb_spec a b)
    | |- context [?a <=? ?b] => destruct (Z.leb_spec a b)
    | |- context [?a >=? ?b] => rewrite (Z.geb_leb a b)
    end.

(** ** Results and loops *)

Lemma bind_Ok_inv {A B} (m : result A) (k : A -> result B) (b : B) :
  bind m k = Ok b -> exists a, m = Ok a /\ k a = Ok b.
Proof. destruct m as [a|e]; simpl; [eauto | discriminate]. Qed.

(** An invariant carried through a loop whose body can throw: if every
    iteration in range succeeds and re-establishes it, the loop does. *)
Lemma iterM_from_inv {St : Type} (P : Z -> St -> Prop) (body : Z -> St -> result St) :
  forall (n : nat) (i : Z) (s : St),
    P i s ->
    (forall j t, i <= j < i + Z.of_nat n -> P j t ->
                 exists t', body j t = Ok t' /\ P (j + 1) t') ->
    exists s', iterM_from n i body s = Ok s' /\ P (i + Z.of_nat n) s'.
Proof.
  induction n as [|n IH]; intros i s Hs Hbody.
  - exists s. simpl. rewrite Z.add_0_r. auto.
  - destruct (Hbody i s) as (t & Ht & HP); [lia | assumption |].
    destruct (IH (i + 1) t HP) as (s' & Hs' & HP').
    + intros j u Hj Hu. apply Hbody; [lia | assumption].
    + exists s'. simpl. rewrite Ht. simpl. split; [assumption |].
      replace (i + Z.of_nat (S n)) with (i + 1 + Z.of_nat n) by lia. assumption.
Qed.

Lemma forM_lt_inv {St : Type} (P : Z -> St -> Prop) (body : Z -> St -> result St)
    (bound : Z) (s : St) :
  0 <= bound ->
  P 0 s ->
  (forall j t, 0 <= j < bound -> P j t -> exists t', body j t = Ok t' /\ P (j + 1) t') ->
  exists s', forM_lt bound body s = Ok s' /\ P bound s'.
Proof.
  intros Hb Hs Hbody. unfold forM_lt.
  destruct (iterM_from_inv P body (Z.to_nat bound) 0 s Hs) as (s' & Hs' & HP).
  - intros j t Hj. apply Hbody. lia.
  - exists s'. split; [assumption |].
    replace bound with (0 + Z.of_nat (Z.to_nat bound)) at 1 by lia. assumption.
Qed.

Lemma iter_from_inv {St : Type} (P : Z -> St -> Prop) (body : Z -> St -> St) :
  forall (n : nat) (i : Z) (s : St),
    P i s ->
    (forall j t, i <= j < i + Z.of_nat n -> P j t -> P (j + 1) (body j t)) ->
    P (i + Z.of_nat n) (iter_from n i body s).
Proof.
  induction n as [|n IH]; intros i s Hs Hbody; simpl.
  - rewrite Z.add_0_r. assumption.
  - replace (i + Z.of_nat (S n)) with (i + 1 + Z.of_nat n) by lia.
    apply IH.
    + apply Hbody; [lia | assumption].
    + intros j u Hj. apply Hbody. lia.
Qed.

Lemma for_lt_inv {St : Type} (P : Z -> St -> Prop) (body : Z -> St -> St)
    (bound : Z) (s : St) :
  0 <= bound ->
  P 0 s ->
  (forall j t, 0 <= j < bound -> P j t -> P (j + 1) (body j t)) ->
  P bound (for_lt bound body s).
Proof.
  intros Hb Hs Hbody. unfold for_lt.
  replace bound with (0 + Z.of_nat (Z.to_nat bound)) at 1 by lia.
  apply iter_from_inv; [assumption |].
  intros j t Hj. apply Hbody. lia.
Qed.

(** A loop over an empty range does nothing. *)
Lemma for_lt_nonpos {St : Type} (body : Z -> St -> St) (bound : Z) (s : St) :
  bound <= 0 -> for_lt bound body s = s.
Proof.
  intros Hb. unfold for_lt. replace (Z.to_nat bound) with O by lia. reflexivity.
Qed.

(** ** Index arithmetic *)

Lemma index_bounds (C R x y : Z) :
  0 <= x < C -> 0 <= y < R -> 0 <= x + y * C < C * R.
Proof. intros Hx Hy. nia. Qed.

Lemma index_inj (C x y x' y' : Z) :
  0 <= x < C -> 0 <= x' < C -> x + y * C = x' + y' * C -> x = x' /\ y = y'.
Proof.
  intros Hx Hx' E.
  assert (y = y') by nia. subst. lia.
Qed.

Lemma index_decompose (C R i : Z) :
  0 < C -> 0 <= i < C * R ->
  0 <= i mod C < C /\ 0 <= i / C < R /\ i mod C + (i / C) * C = i.
Proof.
  intros HC Hi.
  pose proof (Z.mod_pos_bound i C HC).
  pose proof (Z.div_mod i C ltac:(lia)).
  assert (0 <= i / C) by (apply Z.div_pos; lia).
  assert (i / C < R) by (apply Z.div_lt_upper_bound; lia).
  lia.
Qed.

(** ** The row-major enumeration *)

Lemma length_rows (C : Z) (n : nat) (m : Z) :
  length (flat_map (fun y => map (fun x => (x, y)) (seqZ 0 C)) (seqZ m (Z.of_nat n)))
  = (Z.to_nat C * n)%nat.
Proof.
  revert m. induction n as [|n IH]; intros m.
  - rewrite Nat.mul_0_r. reflexivity.
  - rewrite (seqZ_cons m) by lia. simpl flat_map.
    rewrite length_app, length_map, length_seqZ.
    replace (Z.pred (Z.of_nat (S n))) with (Z.of_nat n) by lia.
    rewrite IH. lia.
Qed.

Lemma length_row_major (C R : Z) :
  0 <= R -> length (row_major C R) = (Z.to_nat C * Z.to_nat R)%nat.
Proof.
  intros HR. unfold row_major.
  rewrite <- (Z2Nat.id R) at 1 by lia. apply length_rows.
Qed.

Lemma lookup_rows (C : Z) (n : nat) (m x : Z) (k : nat) :
  0 <= x < C -> (k < n)%nat ->
  flat_map (fun y => map (fun x => (x, y)) (seqZ 0 C)) (seqZ m (Z.of_nat n))
    !! (Z.to_nat x + k * Z.to_nat C)%nat
  = Some (x, m + Z.of_nat k).
Proof.
  intros Hx. revert m k. induction n as [|n IH]; intros m k Hk; [lia |].
  rewrite (seqZ_cons m) by lia. simpl.
  replace (Z.pred (Z.of_nat (S n))) with (Z.of_nat n) by lia.
  destruct k as [|k].
  - rewrite lookup_app_l by (rewrite length_map, length_seqZ; lia).
    rewrite list_lookup_fmap.
    replace (Z.to_nat x + 0 * Z.to_nat C)%nat with (Z.to_nat x) by lia.
    rewrite (proj2 (lookup_seqZ 0 C (Z.to_nat x) x)) by lia.
    simpl. do 2 f_equal. lia.
  - rewrite lookup_app_r by (rewrite length_map, length_seqZ; lia).
    rewrite length_map, length_seqZ.
    replace (Z.to_nat x + S k * Z.to_nat C - Z.to_nat C)%nat
      with (Z.to_nat x + k * Z.to_nat C)%nat by lia.
    rewrite IH by lia. do 2 f_equal. lia.
Qed.

Lemma row_major_lookup (C R x y : Z) :
  0 <= x < C -> 0 <= y < R ->
  row_major C R !! Z.to_nat (x + y * C) = Some (x, y).
Proof.
  intros Hx Hy. unfold row_major.
  rewrite <- (Z2Nat.id R) at 1 by lia.
  replace (Z.to_nat (x + y * C)) with (Z.to_nat x + Z.to_nat y * Z.to_nat C)%nat by nia.
  rewrite (lookup_rows C (Z.to_nat R) 0 x (Z.to_nat y)) by lia.
  do 2 f_equal. lia.
Qed.

Lemma populated_sized (g : Generation) : populated g -> sized g.
Proof.
  intros (HC & HR & Hc). repeat split; try assumption.
  rewrite <- (length_map coordinates), Hc, length_row_major by lia. nia.
Qed.

Lemma cells_at_lookup (cs : list Cell) (i : Z) :
  0 <= i -> cells_at cs i = cs !! Z.to_nat i.
Proof.
  intros Hi. unfold cells_at. destruct (Z.ltb_spec i 0); [lia | reflexivity].
Qed.

Lemma cells_at_is_Some (cs : list Cell) (i : Z) :
  0 <= i < Z.of_nat (length cs) -> exists c, cells_at cs i = Some c.
Proof.
  intros Hi. rewrite cells_at_lookup by lia.
  apply (lookup_lt_is_Some_2 cs (Z.to_nat i)). lia.
Qed.

Lemma sized_cellAt (g : Generation) (x y : Z) :
  sized g -> in_grid g x y -> exists c, cellAt g x y = Some c.
Proof.
  intros (HC & HR & Hlen) (Hx & Hy). apply cells_at_is_Some.
  unfold gridToIndex. rewrite Hlen. apply index_bounds; assumption.
Qed.

(** In a populated generation the cell stored at [x + y * columns] is the
    cell whose coordinates are [(x, y)]. *)
Lemma populated_cellAt (g : Generation) (x y : Z) :
  populated g -> in_grid g x y ->
  exists c, cellAt g x y = Some c /\ gridX c = x /\ gridY c = y.
Proof.
  intros Hp Hin.
  destruct (sized_cellAt g x y (populated_sized g Hp) Hin) as (c & Hc).
  exists c. split; [assumption |].
  destruct Hp as (HC & HR & Hcoord). destruct Hin as (Hx & Hy).
  pose proof (index_bounds _ _ _ _ Hx Hy) as Hi.
  unfold cellAt, gridToIndex in Hc. rewrite cells_at_lookup in Hc by lia.
  pose proof (row_major_lookup _ _ _ _ Hx Hy) as Hrm.
  rewrite <- Hcoord, list_lookup_fmap, Hc in Hrm. simpl in Hrm.
  unfold coordinates in Hrm. split; congruence.
Qed.

(** ** Reading the grid *)

Lemma isAlive_guard_in (g : Generation) (x y : Z) :
  in_grid g x y ->
  (x <? 0) || (x >=? columns g) || (y <? 0) || (y >=? rows g) = false.
Proof. intros (Hx & Hy). zbool; simpl; try reflexivity; lia. Qed.

Lemma isAlive_guard_out (g : Generation) (x y : Z) :
  ~ in_grid g x y ->
  (x <? 0) || (x >=? columns g) || (y <? 0) || (y >=? rows g) = true.
Proof. unfold in_grid. intros Hout. zbool; simpl; try reflexivity; lia. Qed.

Lemma aliveAt_guard_in (g : Generation) (x y : Z) :
  in_grid g x y ->
  (0 <=? x) && (x <? columns g) && (0 <=? y) && (y <? rows g) = true.
Proof. intros (Hx & Hy). zbool; simpl; try reflexivity; lia. Qed.

Lemma aliveAt_guard_out (g : Generation) (x y : Z) :
  ~ in_grid g x y ->
  (0 <=? x) && (x <? columns g) && (0 <=? y) && (y <? rows g) = false.
Proof. unfold in_grid. intros Hout. zbool; simpl; try reflexivity; lia. Qed.

Lemma in_grid_dec (g : Generation) (x y : Z) : {in_grid g x y} + {~ in_grid g x y}.
Proof.
  unfold in_grid.
  destruct (Z_le_dec 0 x), (Z_lt_dec x (columns g)),
    (Z_le_dec 0 y), (Z_lt_dec y (rows g)); (left; lia) || (right; lia).
Defined.

(** A position off the grid is dead whatever the cells are: the guard of
    [isAlive] returns before the array is read. *)
Lemma isAlive_off_grid (g : Generation) (x y : Z) :
  ~ in_grid g x y -> isAlive g x y = Ok 0.
Proof. intros Hout. unfold isAlive. rewrite isAlive_guard_out by assumption. reflexivity. Qed.

Lemma aliveAt_off_grid (g : Generation) (x y : Z) :
  ~ in_grid g x y -> aliveAt g x y = false.
Proof. intros Hout. unfold aliveAt. rewrite aliveAt_guard_out by assumption. reflexivity. Qed.

Lemma isAlive_in_grid (g : Generation) (x y : Z) (c : Cell) :
  in_grid g x y -> cellAt g x y = Some c ->
  isAlive g x y = Ok (if truthy (alive c) then 1 else 0).
Proof.
  intros Hin Hc. unfold isAlive, cell_ref. rewrite isAlive_guard_in by assumption.
  unfold cellAt in Hc. rewrite Hc. reflexivity.
Qed.

(** On a grid of the right size [isAlive] never throws, and agrees with
    the snapshot reading. *)
Lemma isAlive_aliveAt (g : Generation) (x y : Z) :
  sized g -> isAlive g x y = Ok (if aliveAt g x y then 1 else 0).
Proof.
  intros Hs. destruct (in_grid_dec g x y) as [Hin|Hout].
  - destruct (sized_cellAt g x y Hs Hin) as (c & Hc).
    rewrite (isAlive_in_grid g x y c Hin Hc).
    unfold aliveAt. rewrite aliveAt_guard_in by assumption. rewrite Hc. reflexivity.
  - rewrite isAlive_off_grid, aliveAt_off_grid by assumption. reflexivity.
Qed.

Lemma countAlive_neighborAliveCount (g : Generation) (x y : Z) :
  sized g -> countAlive g x y = Ok (neighborAliveCount g x y).
Proof.
  intros Hs. unfold countAlive. rewrite !isAlive_aliveAt by assumption.
  unfold neighborAliveCount, moore. simpl.
  rewrite !Z.add_0_r.
  change (x + -1) with (x - 1). change (y + -1) with (y - 1).
  f_equal. ring.
Qed.

(** The snapshot reading depends on the dimensions and on the alive/dead
    pattern only. *)
Lemma aliveAt_ext (g g' : Generation) (x y : Z) :
  columns g = columns g' -> rows g = rows g' -> pattern g = pattern g' ->
  aliveAt g x y = aliveAt g' x y.
Proof.
  intros HC HR Hp. unfold aliveAt, cellAt, cells_at, gridToIndex.
  rewrite HC, HR.
  destruct ((0 <=? x) && (x <? columns g') && (0 <=? y) && (y <? rows g'));
    [| reflexivity].
  destruct (x + y * columns g' <? 0); [reflexivity |].
  assert (pattern g !! Z.to_nat (x + y * columns g')
          = pattern g' !! Z.to_nat (x + y * columns g')) as E by (rewrite Hp; reflexivity).
  unfold pattern in E. rewrite !list_lookup_fmap in E.
  destruct (cells g !! _), (cells g' !! _); simpl in E; congruence.
Qed.

Lemma neighborAliveCount_ext (g g' : Generation) (x y : Z) :
  columns g = columns g' -> rows g = rows g' -> pattern g = pattern g' ->
  neighborAliveCount g x y = neighborAliveCount g' x y.
Proof.
  intros HC HR Hp. unfold neighborAliveCount, moore. simpl.
  rewrite !(aliveAt_ext g g' _ _ HC HR Hp). reflexivity.
Qed.

(** ** The compute phase *)

(** Writing [nextAlive] of one cell leaves every [alive] field, every
    coordinate and the dimensions as they were. *)
Lemma insert_nextAlive_pattern (cs : list Cell) (i : nat) (c : Cell) (v : value) :
  cs !! i = Some c ->
  map alive (<[i := set_nextAlive v c]> cs) = map alive cs.
Proof.
  intros Hc.
  change (alive <$> <[i := set_nextAlive v c]> cs = alive <$> cs).
  rewrite list_fmap_insert. apply list_insert_id.
  rewrite list_lookup_fmap, Hc. reflexivity.
Qed.

Lemma insert_nextAlive_coordinates (cs : list Cell) (i : nat) (c : Cell) (v : value) :
  cs !! i = Some c ->
  map coordinates (<[i := set_nextAlive v c]> cs) = map coordinates cs.
Proof.
  intros Hc.
  change (coordinates <$> <[i := set_nextAlive v c]> cs = coordinates <$> cs).
  rewrite list_fmap_insert. apply list_insert_id.
  rewrite list_lookup_fmap, Hc. reflexivity.
Qed.

Lemma cell_ref_Ok (cs : list Cell) (i : Z) (c : Cell) :
  cell_ref cs i = Ok c -> 0 <= i /\ cs !! Z.to_nat i = Some c.
Proof.
  unfold cell_ref, cells_at. destruct (Z.ltb_spec i 0); [discriminate |].
  destruct (cs !! Z.to_nat i) eqn:E; [| discriminate].
  intros [= ->]. split; [lia | reflexivity].
Qed.

Lemma computeNextAlive_frame (x y : Z) (g g' : Generation) :
  computeNextAlive x y g = Ok g' ->
  columns g' = columns g /\ rows g' = rows g /\
  pattern g' = pattern g /\
  map coordinates (cells g') = map coordinates (cells g).
Proof.
  unfold computeNextAlive. intros H.
  apply bind_Ok_inv in H as (n & _ & H).
  apply bind_Ok_inv in H as (c & Hc & H).
  apply cell_ref_Ok in Hc as (_ & Hc).
  injection H as <-. unfold pattern. simpl.
  rewrite insert_nextAlive_pattern, insert_nextAlive_coordinates by assumption.
  auto.
Qed.

(** On a grid of the right size the loop body succeeds at every position
    of the grid. *)
Lemma computeNextAlive_Ok (x y : Z) (g : Generation) :
  sized g -> in_grid g x y ->
  exists c, cellAt g x y = Some c /\
    computeNextAlive x y g =
    Ok (set_cells
          (<[Z.to_nat (gridToIndex g x y) :=
               set_nextAlive (rule (neighborAliveCount g x y) (alive c)) c]> (cells g))
          g).
Proof.
  intros Hs Hin. destruct (sized_cellAt g x y Hs Hin) as (c & Hc).
  exists c. split; [assumption |].
  unfold computeNextAlive. rewrite countAlive_neighborAliveCount by assumption.
  simpl. unfold cell_ref. unfold cellAt in Hc. rewrite Hc. reflexivity.
Qed.

Lemma computed_sized (g0 g : Generation) (D : Z -> Z -> Prop) :
  sized g0 -> computed g0 D g -> sized g.
Proof.
  intros (HC & HR & Hlen) (EC & ER & Ep & _). unfold sized.
  rewrite EC, ER. repeat split; try assumption.
  rewrite <- Hlen. f_equal.
  rewrite <- (length_map alive (cells g)), <- (length_map alive (cells g0)).
  unfold pattern in Ep. rewrite Ep. reflexivity.
Qed.

Lemma computed_weaken (g0 g : Generation) (D D' : Z -> Z -> Prop) :
  (forall x y, in_grid g0 x y -> D' x y -> D x y) ->
  computed g0 D g -> computed g0 D' g.
Proof.
  intros Hsub (EC & ER & Ep & Ecoord & Hd).
  repeat split; try assumption.
  intros x y c Hin HD'. apply Hd; auto.
Qed.

Lemma computed_start (g0 : Generation) : computed g0 (fun _ _ => False) g0.
Proof. repeat split; try reflexivity. intros x y c _ []. Qed.

(** One iteration of the inner loop extends the computed positions by
    [(a, b)]. *)
Lemma computeNextAlive_computed (g0 g : Generation) (D : Z -> Z -> Prop) (a b : Z) :
  sized g0 -> in_grid g0 a b -> computed g0 D g ->
  exists g', computeNextAlive a b g = Ok g' /\
             computed g0 (fun x y => D x y \/ (x = a /\ y = b)) g'.
Proof.
  intros Hs0 Hin Hcomp.
  pose proof (computed_sized g0 g D Hs0 Hcomp) as Hs.
  destruct Hcomp as (EC & ER & Ep & Ecoord & Hd).
  assert (in_grid g a b) as Hin' by (unfold in_grid; rewrite EC, ER; exact Hin).
  destruct (computeNextAlive_Ok a b g Hs Hin') as (c & Hc & Hrun).
  eexists. split; [exact Hrun |].
  destruct (computeNextAlive_frame _ _ _ _ Hrun) as (EC' & ER' & Ep' & Ecoord').
  repeat split; try congruence.
  intros x y c' Hxy HD Hc'.
  destruct Hs as (HC & HR & Hlen).
  destruct Hin' as (Ha & Hb). destruct Hxy as (Hx & Hy). rewrite <- EC in Hx.
  pose proof (index_bounds _ _ _ _ Ha Hb) as Hia.
  pose proof (index_bounds _ _ _ _ Hx Hy) as Hix.
  unfold cellAt, gridToIndex in Hc, Hc'. simpl in Hc'.
  rewrite cells_at_lookup in Hc, Hc' by lia.
  unfold gridToIndex in Hc'.
  destruct (Z.eq_dec (x + y * columns g) (a + b * columns g)) as [E|NE].
  - destruct (index_inj _ _ _ _ _ Hx Ha E) as (-> & ->).
    rewrite list_lookup_insert_eq in Hc' by lia.
    injection Hc' as <-. simpl.
    rewrite (neighborAliveCount_ext g g0) by assumption. reflexivity.
  - rewrite list_lookup_insert_ne in Hc' by lia.
    destruct HD as [HD | (-> & ->)]; [| congruence].
    apply Hd; try assumption.
    + split; [congruence | assumption].
    + unfold cellAt, gridToIndex. rewrite cells_at_lookup by lia. assumption.
Qed.

(** After the two loops every cell of the grid holds its next state,
    computed from the generation the phase started from, and no [alive]
    field has been written. *)
Lemma computePhase_computed (g : Generation) :
  sized g ->
  exists g1, computePhase g = Ok g1 /\ computed g (fun _ _ => True) g1.
Proof.
  intros Hs. pose proof Hs as (HC & HR & Hlen). unfold computePhase.
  destruct (forM_lt_inv (fun a g1 => computed g (fun x _ => x < a) g1)
              (fun x g1 => forM_lt (rows g1) (fun y g2 => computeNextAlive x y g2) g1)
              (columns g) g) as (g1 & Hrun & Hinv).
  - lia.
  - eapply computed_weaken; [| apply computed_start].
    simpl. intros x y (Hx & _) Hlt. lia.
  - intros a g1 Ha Hg1.
    assert (rows g1 = rows g) as ER by apply Hg1.
    destruct (forM_lt_inv
                (fun b g2 => computed g (fun x y => x < a \/ (x = a /\ y < b)) g2)
                (fun y g2 => computeNextAlive a y g2) (rows g1) g1)
      as (g2 & Hrun2 & Hinv2).
    + lia.
    + eapply computed_weaken; [| exact Hg1].
      simpl. intros x y (_ & Hy) Hd. lia.
    + intros b g2 Hb Hg2.
      destruct (computeNextAlive_computed g g2
                  (fun x y => x < a \/ (x = a /\ y < b)) a b Hs)
        as (g3 & Hrun3 & Hinv3); [split; lia | exact Hg2 |].
      exists g3. split; [assumption |].
      eapply computed_weaken; [| exact Hinv3].
      simpl. intros x y _ Hd. lia.
    + exists g2. split; [assumption |].
      eapply computed_weaken; [| exact Hinv2].
      simpl. intros x y (_ & Hy) Hx. lia.
  - exists g1. split; [assumption |].
    eapply computed_weaken; [| exact Hinv].
    simpl. intros x y (Hx & _) _. lia.
Qed.

(** ** The whole transition *)

Lemma lookup_map_eq {A B : Type} (f : A -> B) (l l' : list A) (i : nat) :
  map f l = map f l' -> f <$> l !! i = f <$> l' !! i.
Proof.
  intros E. rewrite <- !list_lookup_fmap.
  change (map f l !! i = map f l' !! i). rewrite E. reflexivity.
Qed.

(** The array index of a cell of a populated generation gives back its
    coordinates. *)
Lemma populated_lookup (g : Generation) (i : nat) (c : Cell) :
  populated g -> cells g !! i = Some c ->
  in_grid g (gridX c) (gridY c) /\ gridToIndex g (gridX c) (gridY c) = Z.of_nat i.
Proof.
  intros Hp Hc.
  pose proof (populated_sized g Hp) as (HC & HR & Hlen).
  pose proof (lookup_lt_Some _ _ _ Hc) as Hi.
  destruct (index_decompose (columns g) (rows g) (Z.of_nat i) HC ltac:(lia))
    as (Hx & Hy & E).
  destruct (populated_cellAt g _ _ Hp (conj Hx Hy)) as (c' & Hc' & EX & EY).
  unfold cellAt, gridToIndex in Hc'. rewrite E in Hc'.
  rewrite cells_at_lookup, Nat2Z.id in Hc' by lia.
  assert (c' = c) as -> by congruence.
  unfold in_grid, gridToIndex. rewrite EX, EY. auto.
Qed.

Lemma snapshotAdvance_pattern (g : Generation) :
  pattern (snapshotAdvance g) =
  map (fun c => rule (neighborAliveCount g (gridX c) (gridY c)) (alive c)) (cells g).
Proof. unfold pattern, snapshotAdvance. simpl. rewrite map_map. reflexivity. Qed.

Lemma snapshotAdvance_coordinates (g : Generation) :
  map coordinates (cells (snapshotAdvance g)) = map coordinates (cells g).
Proof. unfold snapshotAdvance. simpl. rewrite map_map. reflexivity. Qed.

Lemma snapshotAdvance_populated (g : Generation) :
  populated g -> populated (snapshotAdvance g).
Proof.
  intros (HC & HR & Hc). unfold populated.
  rewrite snapshotAdvance_coordinates. auto.
Qed.

(** The transition of the code, two loops that write in place followed by
    the commit, is the simultaneous step. *)
Lemma updateNextGenCellsAlive_snapshot (g : Generation) :
  populated g -> updateNextGenCellsAlive g = Ok (snapshotAdvance g).
Proof.
  intros Hp. pose proof (populated_sized g Hp) as Hs.
  destruct (computePhase_computed g Hs) as (g1 & Hrun & EC & ER & Ep & Ecoord & Hd).
  unfold updateNextGenCellsAlive. rewrite Hrun. simpl. f_equal.
  unfold commitPhase, snapshotAdvance, set_cells. rewrite EC, ER. f_equal.
  apply list_eq. intros i.
  change (((fun c => set_alive (nextAlive c) c) <$> cells g1) !! i
          = (snapshotCell g <$> cells g) !! i).
  rewrite !list_lookup_fmap.
  pose proof (lookup_map_eq alive _ _ i Ep) as Ea.
  pose proof (lookup_map_eq coordinates _ _ i Ecoord) as Exy.
  destruct (cells g !! i) as [c0|] eqn:E0; destruct (cells g1 !! i) as [c1|] eqn:E1;
    simpl in Ea, Exy; try discriminate; [| reflexivity].
  simpl. f_equal.
  destruct (populated_lookup g i c0 Hp E0) as (Hin & Hidx).
  injection Ea as Ea. injection Exy as EX EY.
  assert (cellAt g1 (gridX c0) (gridY c0) = Some c1) as Hc1.
  { unfold cellAt, gridToIndex. rewrite EC. unfold gridToIndex in Hidx. rewrite Hidx.
    rewrite cells_at_lookup, Nat2Z.id by lia. assumption. }
  pose proof (Hd _ _ _ Hin I Hc1) as Hn.
  unfold set_alive, snapshotCell. rewrite Hn, EX, EY, Ea. reflexivity.
Qed.

Lemma populated_nonempty (g : Generation) :
  populated g -> (length (cells g) =? 0)%nat = false.
Proof.
  intros Hp. destruct (populated_sized g Hp) as (HC & HR & Hlen).
  apply Nat.eqb_neq. nia.
Qed.

(** [next] on a populated generation is the simultaneous step, and draws
    no random number. *)
Lemma next_populated (g : Generation) (r : rng) :
  populated g -> next g r = Ok (snapshotAdvance g, r).
Proof.
  intros Hp. unfold next. rewrite populated_nonempty by assumption. simpl.
  rewrite updateNextGenCellsAlive_snapshot by assumption. reflexivity.
Qed.

(** ** Population *)

Lemma seqZ_snoc (a : Z) : 0 <= a -> seqZ 0 (a + 1) = seqZ 0 a ++ [a].
Proof. intros Ha. rewrite seqZ_app by lia. f_equal. Qed.

Lemma row_major_snoc (C b : Z) :
  0 <= b ->
  row_major C (b + 1) = row_major C b ++ map (fun x => (x, b)) (seqZ 0 C).
Proof.
  intros Hb. unfold row_major.
  rewrite seqZ_snoc, flat_map_app by assumption. simpl.
  rewrite app_nil_r. reflexivity.
Qed.

(** What [createGrid] leaves behind: the dimensions as they were and the
    grid's coordinate pairs, rows outermost, pushed after the cells that
    were there. *)
Lemma createGrid_coordinates (g : Generation) (r : rng) :
  0 <= columns g -> 0 <= rows g ->
  columns (fst (createGrid g r)) = columns g /\
  rows (fst (createGrid g r)) = rows g /\
  map coordinates (cells (fst (createGrid g r)))
  = map coordinates (cells g) ++ row_major (columns g) (rows g).
Proof.
  intros HC HR. unfold createGrid.
  apply (for_lt_inv
    (fun b (s : Generation * rng) =>
       columns (fst s) = columns g /\ rows (fst s) = rows g /\
       map coordinates (cells (fst s))
       = map coordinates (cells g) ++ row_major (columns g) b)).
  - assumption.
  - simpl. rewrite app_nil_r. auto.
  - intros b s Hb (EC & ER & Ecoord).
    rewrite row_major_snoc, app_assoc, <- Ecoord by lia.
    apply (for_lt_inv
      (fun a (t : Generation * rng) =>
         columns (fst t) = columns g /\ rows (fst t) = rows g /\
         map coordinates (cells (fst t))
         = map coordinates (cells (fst s)) ++ map (fun x => (x, b)) (seqZ 0 a))).
    + assumption.
    + simpl. rewrite app_nil_r. auto.
    + intros a t Ha (EC' & ER' & Ecoord'). simpl.
      repeat split; try assumption.
      rewrite map_app, Ecoord', seqZ_snoc, map_app, app_assoc by lia.
      reflexivity.
Qed.

(** With a dimension that is not positive no cell is ever pushed. *)
Lemma createGrid_nonpos (g : Generation) (r : rng) :
  columns g <= 0 \/ rows g <= 0 -> createGrid g r = (g, r).
Proof.
  intros Hdim. unfold createGrid.
  destruct (Z_le_gt_dec (rows g) 0) as [HR|HR].
  - apply for_lt_nonpos. assumption.
  - apply (for_lt_inv (fun _ (s : Generation * rng) => s = (g, r))).
    + lia.
    + reflexivity.
    + intros b s _ ->. apply for_lt_nonpos. lia.
Qed.

(** The first [next] of a generation with positive dimensions builds the
    populated grid. *)
Lemma createGrid_populated (g : Generation) (r : rng) :
  0 < columns g -> 0 < rows g -> cells g = [] ->
  populated (fst (createGrid g r)).
Proof.
  intros HC HR Hnil.
  destruct (createGrid_coordinates g r) as (EC & ER & Ecoord); [lia | lia |].
  unfold populated. rewrite EC, ER, Ecoord, Hnil. auto.
Qed.

(** ** Repeated advance *)

Lemma advance_populated (n : nat) (g : Generation) (r : rng) :
  populated g ->
  exists g', advance n g r = Ok (g', r) /\ populated g' /\
             columns g' = columns g /\ rows g' = rows g /\
             map coordinates (cells g') = map coordinates (cells g).
Proof.
  revert g. induction n as [|n IH]; intros g Hp.
  - exists g. simpl. auto.
  - destruct (IH (snapshotAdvance g) (snapshotAdvance_populated g Hp))
      as (g' & Hrun & Hp' & EC & ER & Ecoord).
    exists g'. simpl. rewrite next_populated by assumption. simpl.
    rewrite snapshotAdvance_coordinates in Ecoord. auto.
Qed.

(** ** The constructor *)

Lemma constructor_Ok (o : Options) :
  exists g, constructor (Some o) = Ok g /\ cells g = [].
Proof. eexists. split; reflexivity. Qed.

(** ** The rule and the cells of the next generation *)

Lemma rule_2 (v : value) : rule 2 v = v.
Proof. reflexivity. Qed.

Lemma rule_3 (v : value) : rule 3 v = boolean true.
Proof. reflexivity. Qed.

Lemma rule_other (n : Z) (v : value) : n <> 2 -> n <> 3 -> rule n v = boolean false.
Proof.
  intros H2 H3. unfold rule.
  destruct (Z.eqb_spec n 2); [contradiction |].
  destruct (Z.eqb_spec n 3); [contradiction | reflexivity].
Qed.

Lemma cellAt_snapshotAdvance (g : Generation) (x y : Z) :
  cellAt (snapshotAdvance g) x y = snapshotCell g <$> cellAt g x y.
Proof.
  unfold cellAt, cells_at, gridToIndex. simpl.
  destruct (x + y * columns g <? 0); [reflexivity |].
  change (map (snapshotCell g) (cells g)) with (snapshotCell g <$> cells g).
  apply list_lookup_fmap.
Qed.

Lemma neighborAliveCount_bounds (g : Generation) (x y : Z) :
  0 <= neighborAliveCount g x y <= 8.
Proof.
  unfold neighborAliveCount, moore. simpl.
  repeat match goal with |- context [aliveAt g ?a ?b] => destruct (aliveAt g a b) end;
    lia.
Qed.

Lemma aliveAt_all_alive (g : Generation) (x y : Z) :
  sized g -> all_alive g -> in_grid g x y -> aliveAt g x y = true.
Proof.
  intros Hs Hall Hin. destruct (sized_cellAt g x y Hs Hin) as (c & Hc).
  unfold aliveAt. rewrite aliveAt_guard_in, Hc by assumption.
  unfold cellAt, cells_at in Hc.
  destruct (gridToIndex g x y <? 0); [discriminate |].
  exact (proj1 (Forall_lookup _ _) Hall _ _ Hc).
Qed.

Lemma aliveAt_all_dead (g : Generation) (x y : Z) :
  all_dead g -> aliveAt g x y = false.
Proof.
  intros Hall. unfold aliveAt.
  destruct ((0 <=? x) && (x <? columns g) && (0 <=? y) && (y <? rows g));
    [| reflexivity].
  destruct (cellAt g x y) as [c|] eqn:Hc; [| reflexivity].
  unfold cellAt, cells_at in Hc.
  destruct (gridToIndex g x y <? 0); [discriminate |].
  rewrite (proj1 (Forall_lookup _ _) Hall _ _ Hc). reflexivity.
Qed.

(** * The claims *)

(** C1.  For a populated generation and a cell [(x, y)] of its grid, one
    [next] leaves at [(x, y)] a cell whose [alive] is: the prior [alive]
    when the neighbour count [n] taken before the transition is 2,
    [true] when it is 3, and [false] for every other count.  The count
    [n] is what the code's [countAlive] returns, and it is the number of
    alive cells among the eight Moore neighbours of [(x, y)] in the
    generation before the transition. *)
Theorem transition_rule (g : Generation) (r : rng) (x y : Z) :
  populated g -> in_grid g x y ->
  exists g' c c' n,
    next g r = Ok (g', r) /\
    cellAt g x y = Some c /\
    cellAt g' x y = Some c' /\ gridX c' = x /\ gridY c' = y /\
    countAlive g x y = Ok n /\
    n = neighborAliveCount g x y /\
    (n = 2 -> alive c' = alive c) /\
    (n = 3 -> alive c' = boolean true) /\
    (n <> 2 -> n <> 3 -> alive c' = boolean false).
Proof.
  intros Hp Hin.
  destruct (populated_cellAt g x y Hp Hin) as (c & Hc & EX & EY).
  exists (snapshotAdvance g), c, (snapshotCell g c), (neighborAliveCount g x y).
  split; [apply next_populated; assumption |].
  split; [assumption |].
  split; [rewrite cellAt_snapshotAdvance, Hc; reflexivity |].
  split; [assumption |]. split; [assumption |].
  split; [apply countAlive_neighborAliveCount, populated_sized; assumption |].
  split; [reflexivity |].
  unfold snapshotCell. simpl. rewrite EX, EY.
  split; [intros ->; apply rule_2 |].
  split; [intros ->; apply rule_3 |].
  apply rule_other.
Qed.

Lemma transition_rule_witness :
  exists g' c c' n,
    next blinker_horizontal coin = Ok (g', coin) /\
    cellAt blinker_horizontal 1 0 = Some c /\
    cellAt g' 1 0 = Some c' /\ gridX c' = 1 /\ gridY c' = 0 /\
    countAlive blinker_horizontal 1 0 = Ok n /\
    n = neighborAliveCount blinker_horizontal 1 0 /\
    (n = 2 -> alive c' = alive c) /\
    (n = 3 -> alive c' = boolean true) /\
    (n <> 2 -> n <> 3 -> alive c' = boolean false).
Proof.
  apply (transition_rule blinker_horizontal coin 1 0).
  - unfold populated. simpl. repeat split; reflexivity.
  - unfold in_grid. simpl. lia.
Defined.

(** C2.  On a populated generation the transition of the code equals the
    simultaneous step [snapshotAdvance], in which every cell is rewritten
    from the one prior generation.  The compute phase succeeds, writes no
    [alive] field (no iteration of it does), and when it ends every cell
    of the grid holds the next state derived from the prior generation;
    the commit phase runs on that state. *)
Theorem two_phase_is_simultaneous (g : Generation) (r : rng) :
  populated g ->
  updateNextGenCellsAlive g = Ok (snapshotAdvance g) /\
  next g r = Ok (snapshotAdvance g, r) /\
  (forall x y h h', computeNextAlive x y h = Ok h' -> pattern h' = pattern h) /\
  exists g1,
    computePhase g = Ok g1 /\
    pattern g1 = pattern g /\
    (forall x y c, in_grid g x y -> cellAt g1 x y = Some c ->
                   nextAlive c = rule (neighborAliveCount g x y) (alive c)) /\
    commitPhase g1 = snapshotAdvance g.
Proof.
  intros Hp.
  pose proof (updateNextGenCellsAlive_snapshot g Hp) as Hupd.
  split; [assumption |].
  split; [apply next_populated; assumption |].
  split; [intros x y h h' Hrun; apply (computeNextAlive_frame _ _ _ _ Hrun) |].
  destruct (computePhase_computed g (populated_sized g Hp))
    as (g1 & Hrun & EC & ER & Ep & Ecoord & Hd).
  exists g1. repeat split; try assumption.
  - intros x y c Hin Hc. apply Hd; auto.
  - unfold updateNextGenCellsAlive in Hupd. rewrite Hrun in Hupd.
    simpl in Hupd. congruence.
Qed.

Lemma two_phase_is_simultaneous_witness :
  updateNextGenCellsAlive blinker_horizontal = Ok (snapshotAdvance blinker_horizontal) /\
  next blinker_horizontal coin = Ok (snapshotAdvance blinker_horizontal, coin) /\
  (forall x y h h', computeNextAlive x y h = Ok h' -> pattern h' = pattern h) /\
  exists g1,
    computePhase blinker_horizontal = Ok g1 /\
    pattern g1 = pattern blinker_horizontal /\
    (forall x y c, in_grid blinker_horizontal x y -> cellAt g1 x y = Some c ->
       nextAlive c = rule (neighborAliveCount blinker_horizontal x y) (alive c)) /\
    commitPhase g1 = snapshotAdvance blinker_horizontal.
Proof.
  apply (two_phase_is_simultaneous blinker_horizontal coin).
  unfold populated. simpl. repeat split; reflexivity.
Defined.

(** C3 (as amended).  On a populated generation the neighbour count at
    any position is returned, lies in [0, 8] and is the number of alive
    cells among the eight Moore positions, a position off the grid
    counting as dead; [isAlive] returns 0 off the grid; and on a grid of
    at least two columns and two rows with every cell alive the count at
    the corner [(0, 0)] is 3. *)
Theorem neighbor_count (g : Generation) (x y : Z) :
  populated g ->
  exists n,
    countAlive g x y = Ok n /\ 0 <= n <= 8 /\
    n = neighborAliveCount g x y /\
    (forall u v, ~ in_grid g u v -> isAlive g u v = Ok 0 /\ aliveAt g u v = false) /\
    (all_alive g -> 2 <= columns g -> 2 <= rows g -> countAlive g 0 0 = Ok 3).
Proof.
  intros Hp. pose proof (populated_sized g Hp) as Hs.
  exists (neighborAliveCount g x y).
  split; [apply countAlive_neighborAliveCount; assumption |].
  split; [apply neighborAliveCount_bounds |].
  split; [reflexivity |].
  split.
  - intros u v Hout. split; [apply isAlive_off_grid | apply aliveAt_off_grid]; assumption.
  - intros Hall HC HR.
    rewrite countAlive_neighborAliveCount by assumption. f_equal.
    unfold neighborAliveCount, moore, foldr, fst, snd.
    change (0 + -1) with (-1). change (0 + 0) with 0. change (0 + 1) with 1.
    rewrite !(aliveAt_off_grid g (-1)) by (unfold in_grid; lia).
    rewrite !(aliveAt_off_grid g _ (-1)) by (unfold in_grid; lia).
    rewrite !aliveAt_all_alive by (try assumption; unfold in_grid; lia).
    reflexivity.
Qed.

Lemma neighbor_count_witness :
  populated (seeded 2 2 [true; true; true; true]) /\
  exists n,
    countAlive (seeded 2 2 [true; true; true; true]) 0 0 = Ok n /\ 0 <= n <= 8 /\
    n = neighborAliveCount (seeded 2 2 [true; true; true; true]) 0 0 /\
    countAlive (seeded 2 2 [true; true; true; true]) 0 0 = Ok 3.
Proof.
  assert (populated (seeded 2 2 [true; true; true; true])) as Hp
    by (unfold populated; simpl; repeat split; reflexivity).
  split; [exact Hp |].
  destruct (neighbor_count (seeded 2 2 [true; true; true; true]) 0 0 Hp)
    as (n & Hn & Hb & Hc & _ & Hcorner).
  exists n.
  split; [exact Hn |]. split; [exact Hb |]. split; [exact Hc |].
  apply Hcorner.
  - repeat constructor.
  - simpl. lia.
  - simpl. lia.
Defined.

(** C3, the claim as stated fails: the one-cell grid is populated and
    all alive, and the count at its corner is 0.  (Before the first
    [next] there is no cell to read: a lookup inside the grid throws.) *)
Lemma corner_count_one_cell_grid :
  populated single_alive /\ all_alive single_alive /\
  countAlive single_alive 0 0 = Ok 0 /\
  countAlive single_alive 0 0 <> Ok 3 /\
  countAlive (mkGeneration 3 3 []) 1 1 = Throw TypeError.
Proof.
  split; [unfold populated; simpl; repeat split; reflexivity |].
  split; [repeat constructor |].
  split; [reflexivity |].
  split; [discriminate | reflexivity].
Qed.

Lemma populated_NoDup (g : Generation) :
  populated g -> NoDup (map coordinates (cells g)).
Proof.
  intros Hp. apply NoDup_alt. intros i j p Hi Hj.
  change (map coordinates (cells g)) with (coordinates <$> cells g) in Hi, Hj.
  rewrite list_lookup_fmap in Hi, Hj.
  destruct (cells g !! i) as [c|] eqn:Ei; [| discriminate].
  destruct (cells g !! j) as [c'|] eqn:Ej; [| discriminate].
  simpl in Hi, Hj.
  destruct (populated_lookup g i c Hp Ei) as (_ & Hci).
  destruct (populated_lookup g j c' Hp Ej) as (_ & Hcj).
  assert (coordinates c = coordinates c') as E by congruence.
  unfold coordinates in E. injection E as EX EY.
  rewrite EX, EY in Hci. lia.
Qed.

Lemma populated_elem_of (g : Generation) (x y : Z) :
  populated g -> in_grid g x y <-> (x, y) ∈ map coordinates (cells g).
Proof.
  intros Hp. split.
  - intros Hin. destruct (populated_cellAt g x y Hp Hin) as (c & Hc & EX & EY).
    apply list_elem_of_fmap. exists c. split; [unfold coordinates; congruence |].
    unfold cellAt, cells_at in Hc.
    destruct (gridToIndex g x y <? 0); [discriminate |].
    apply list_elem_of_lookup. eauto.
  - intros Hel. apply list_elem_of_fmap in Hel as (c & E & Hel).
    apply list_elem_of_lookup in Hel as (i & Hi).
    destruct (populated_lookup g i c Hp Hi) as (Hin & _).
    unfold coordinates in E. injection E as -> ->. assumption.
Qed.

(** C4 (as amended).  A constructed generation has no cells.  With
    positive dimensions the first [next] builds the grid rows outermost:
    [columns * rows] cells, each coordinate pair of the grid exactly
    once, the cell at index [x + y * columns] being the cell [(x, y)].
    Every later [next] runs the transition: it constructs no cell (the
    random draws are untouched) and keeps the grid. *)
Theorem first_advance_populates (o : Options) (g0 : Generation) (r : rng) :
  constructor (Some o) = Ok g0 -> 0 < columns g0 -> 0 < rows g0 ->
  cells g0 = [] /\
  exists g1 r1,
    next g0 r = Ok (g1, r1) /\
    columns g1 = columns g0 /\ rows g1 = rows g0 /\
    Z.of_nat (length (cells g1)) = columns g1 * rows g1 /\
    map coordinates (cells g1) = row_major (columns g1) (rows g1) /\
    NoDup (map coordinates (cells g1)) /\
    (forall x y, in_grid g1 x y <-> (x, y) ∈ map coordinates (cells g1)) /\
    (forall x y, in_grid g1 x y ->
       exists c, cellAt g1 x y = Some c /\ gridX c = x /\ gridY c = y) /\
    (forall n r', exists g' h,
       advance n g1 r' = Ok (g', r') /\
       updateNextGenCellsAlive g' = Ok h /\
       next g' r' = Ok (h, r') /\
       map coordinates (cells h) = map coordinates (cells g1)).
Proof.
  intros Hctor HC HR.
  assert (cells g0 = []) as Hnil.
  { destruct (constructor_Ok o) as (g & Hg & Hnil). congruence. }
  split; [assumption |].
  pose proof (createGrid_populated g0 r HC HR Hnil) as Hp.
  destruct (createGrid_coordinates g0 r) as (EC & ER & _); [lia | lia |].
  exists (fst (createGrid g0 r)), (snd (createGrid g0 r)).
  split.
  { unfold next. rewrite Hnil. simpl. rewrite <- surjective_pairing. reflexivity. }
  split; [assumption |]. split; [assumption |].
  split; [apply (populated_sized _ Hp) |].
  split; [apply Hp |].
  split; [apply populated_NoDup; assumption |].
  split; [intros x y; apply populated_elem_of; assumption |].
  split; [intros x y; apply populated_cellAt; assumption |].
  intros n r'.
  destruct (advance_populated n _ r' Hp) as (g' & Hrun & Hp' & _ & _ & Ecoord).
  exists g', (snapshotAdvance g').
  split; [assumption |].
  split; [apply updateNextGenCellsAlive_snapshot; assumption |].
  split; [apply next_populated; assumption |].
  rewrite snapshotAdvance_coordinates. assumption.
Qed.

Lemma first_advance_populates_witness :
  cells (mkGeneration 3 2 []) = [] /\
  exists g1 r1,
    next (mkGeneration 3 2 []) coin = Ok (g1, r1) /\
    columns g1 = 3 /\ rows g1 = 2 /\
    Z.of_nat (length (cells g1)) = columns g1 * rows g1 /\
    map coordinates (cells g1) = row_major (columns g1) (rows g1) /\
    NoDup (map coordinates (cells g1)) /\
    (forall x y, in_grid g1 x y <-> (x, y) ∈ map coordinates (cells g1)) /\
    (forall x y, in_grid g1 x y ->
       exists c, cellAt g1 x y = Some c /\ gridX c = x /\ gridY c = y) /\
    (forall n r', exists g' h,
       advance n g1 r' = Ok (g', r') /\
       updateNextGenCellsAlive g' = Ok h /\
       next g' r' = Ok (h, r') /\
       map coordinates (cells h) = map coordinates (cells g1)).
Proof.
  apply (first_advance_populates
           (mkOptions (Some (Int 2)) (Some (Int 3))) (mkGeneration 3 2 []) coin).
  - reflexivity.
  - simpl. lia.
  - simpl. lia.
Defined.

(** C4, the claim as stated fails: the constructor stores negative
    dimensions, [createGrid] then pushes nothing, so the array stays
    empty while [columns * rows] is 1, and the next call takes the
    populating branch again. *)
Lemma negative_dimensions_never_populate :
  constructor (Some (mkOptions (Some (Int (-1))) (Some (Int (-1)))))
  = Ok (mkGeneration (-1) (-1) []) /\
  next (mkGeneration (-1) (-1) []) coin = Ok (mkGeneration (-1) (-1) [], coin) /\
  Z.of_nat (length (cells (mkGeneration (-1) (-1) [])))
  <> columns (mkGeneration (-1) (-1) []) * rows (mkGeneration (-1) (-1) []) /\
  forall n, advance n (mkGeneration (-1) (-1) []) coin
            = Ok (mkGeneration (-1) (-1) [], coin).
Proof.
  split; [reflexivity |]. split; [reflexivity |]. split; [discriminate |].
  induction n as [|n IH]; [reflexivity |].
  change (advance (S n) ?g coin) with (s <- next g coin ;; advance n (fst s) (snd s)).
  unfold next. simpl length. simpl negb.
  rewrite createGrid_nonpos by (simpl; lia). exact IH.
Qed.

(** C10.  The constructor returns normally for every options object; a
    dimension that is absent, 0 or [NaN] leaves the default 50, any other
    number is stored. *)
Theorem constructor_defaults (o : Options) :
  exists g,
    constructor (Some o) = Ok g /\ cells g = [] /\
    rows g = match opt_rows o with
             | None | Some NaN | Some (Int 0) => 50
             | Some (Int z) => z
             end /\
    columns g = match opt_columns o with
                | None | Some NaN | Some (Int 0) => 50
                | Some (Int z) => z
                end.
Proof.
  destruct o as [[[|[|p|p]]|] [[|[|q|q]]|]]; eexists; repeat split; reflexivity.
Qed.

(** C5 (as amended).  No options object makes the constructor throw: it
    returns a generation with no cells, with 50 in place of a dimension
    that is absent, 0 or [NaN].  With positive integer dimensions the
    dimensions are stored as given, no number of calls of [next] throws,
    and once the grid is built no neighbour lookup throws. *)
Theorem construction_and_advance_total (rows0 columns0 : Z) :
  0 < rows0 -> 0 < columns0 ->
  (forall o, exists g, constructor (Some o) = Ok g /\ cells g = [] /\
     (truthy_field (opt_rows o) = false -> rows g = 50) /\
     (truthy_field (opt_columns o) = false -> columns g = 50)) /\
  constructor (Some (mkOptions (Some (Int rows0)) (Some (Int columns0))))
  = Ok (mkGeneration columns0 rows0 []) /\
  forall n r, exists g r',
    advance (S n) (mkGeneration columns0 rows0 []) r = Ok (g, r') /\
    forall x y, exists a k, isAlive g x y = Ok a /\ countAlive g x y = Ok k.
Proof.
  intros HR HC. split; [| split].
  - intros o. eexists. split; [reflexivity |]. split; [reflexivity |].
    unfold constructor. simpl.
    split; intros ->; reflexivity.
  - unfold constructor. simpl.
    destruct (Z.eqb_spec rows0 0); [lia |].
    destruct (Z.eqb_spec columns0 0); [lia |]. reflexivity.
  - intros n r.
    pose proof (createGrid_populated (mkGeneration columns0 rows0 []) r HC HR eq_refl)
      as Hp.
    destruct (advance_populated n _ (snd (createGrid (mkGeneration columns0 rows0 []) r)) Hp)
      as (g & Hrun & Hp' & _).
    exists g, (snd (createGrid (mkGeneration columns0 rows0 []) r)).
    split.
    + change (advance (S n) ?g0 r) with (s <- next g0 r ;; advance n (fst s) (snd s)).
      unfold next. simpl. assumption.
    + intros x y. pose proof (populated_sized g Hp') as Hs.
      do 2 eexists. split;
        [apply isAlive_aliveAt | apply countAlive_neighborAliveCount]; assumption.
Qed.

Lemma construction_and_advance_total_witness :
  (forall o, exists g, constructor (Some o) = Ok g /\ cells g = [] /\
     (truthy_field (opt_rows o) = false -> rows g = 50) /\
     (truthy_field (opt_columns o) = false -> columns g = 50)) /\
  constructor (Some (mkOptions (Some (Int 2)) (Some (Int 3))))
  = Ok (mkGeneration 3 2 []) /\
  forall n r, exists g r',
    advance (S n) (mkGeneration 3 2 []) r = Ok (g, r') /\
    forall x y, exists a k, isAlive g x y = Ok a /\ countAlive g x y = Ok k.
Proof.
  apply (construction_and_advance_total 2 3); lia.
Defined.

(** C5, the claim as stated fails: with [rows] absent and a negative
    [columns] the constructor throws nothing and returns a generation. *)
Lemma constructor_accepts_nonpositive :
  constructor (Some (mkOptions None (Some (Int (-3))))) = Ok (mkGeneration (-3) 50 []) /\
  constructor (Some (mkOptions (Some (Int 0)) None)) = Ok (mkGeneration 50 50 []) /\
  ~ exists e, constructor (Some (mkOptions None (Some (Int (-3))))) = Throw e.
Proof.
  split; [reflexivity |]. split; [reflexivity |].
  intros (e & He). discriminate He.
Qed.

(** The pattern after the simultaneous step is a function of the
    dimensions, the coordinates and the pattern before it. *)
Lemma snapshotAdvance_pattern_ext (g1 g2 : Generation) :
  columns g1 = columns g2 -> rows g1 = rows g2 ->
  map coordinates (cells g1) = map coordinates (cells g2) ->
  pattern g1 = pattern g2 ->
  pattern (snapshotAdvance g1) = pattern (snapshotAdvance g2).
Proof.
  intros EC ER Ecoord Ep. rewrite !snapshotAdvance_pattern.
  apply list_eq. intros i.
  change (((fun c => rule (neighborAliveCount g1 (gridX c) (gridY c)) (alive c))
             <$> cells g1) !! i
          = ((fun c => rule (neighborAliveCount g2 (gridX c) (gridY c)) (alive c))
               <$> cells g2) !! i).
  rewrite !list_lookup_fmap.
  pose proof (lookup_map_eq alive _ _ i Ep) as Ea.
  pose proof (lookup_map_eq coordinates _ _ i Ecoord) as Exy.
  destruct (cells g1 !! i) as [c1|], (cells g2 !! i) as [c2|];
    simpl in Ea, Exy; try discriminate; [| reflexivity].
  injection Ea as Ea. injection Exy as EX EY. simpl.
  rewrite (neighborAliveCount_ext g1 g2) by assumption.
  rewrite EX, EY, Ea. reflexivity.
Qed.

(** C6.  Two populated generations with the same dimensions and the same
    alive/dead pattern, whatever their [nextAlive] fields and whatever the
    random draws, have the same pattern after [next]. *)
Theorem advance_deterministic (g1 g2 : Generation) (r1 r2 : rng) :
  populated g1 -> populated g2 ->
  columns g1 = columns g2 -> rows g1 = rows g2 ->
  pattern g1 = pattern g2 ->
  exists g1' g2',
    next g1 r1 = Ok (g1', r1) /\ next g2 r2 = Ok (g2', r2) /\
    columns g1' = columns g2' /\ rows g1' = rows g2' /\
    pattern g1' = pattern g2'.
Proof.
  intros Hp1 Hp2 EC ER Ep.
  exists (snapshotAdvance g1), (snapshotAdvance g2).
  split; [apply next_populated; assumption |].
  split; [apply next_populated; assumption |].
  split; [assumption |]. split; [assumption |].
  apply snapshotAdvance_pattern_ext; try assumption.
  destruct Hp1 as (_ & _ & ->). destruct Hp2 as (_ & _ & ->).
  rewrite EC, ER. reflexivity.
Qed.

Lemma advance_deterministic_witness :
  exists g1' g2',
    next blinker_horizontal coin = Ok (g1', coin) /\
    next (snapshotAdvance (snapshotAdvance blinker_horizontal)) negb_coin
    = Ok (g2', negb_coin) /\
    columns g1' = columns g2' /\ rows g1' = rows g2' /\
    pattern g1' = pattern g2'.
Proof.
  apply (advance_deterministic
           blinker_horizontal (snapshotAdvance (snapshotAdvance blinker_horizontal))
           coin negb_coin).
  - unfold populated. simpl. repeat split; reflexivity.
  - unfold populated. simpl. repeat split; reflexivity.
  - reflexivity.
  - reflexivity.
  - vm_compute. reflexivity.
Defined.

Lemma aliveAt_exactly (g : Generation) (P : Z -> Z -> bool) (u v : Z) :
  alive_exactly g P ->
  aliveAt g u v
  = (0 <=? u) && (u <? columns g) && (0 <=? v) && (v <? rows g) && P u v.
Proof.
  intros HP. destruct (in_grid_dec g u v) as [Hin|Hout].
  - destruct (HP u v Hin) as (c & Hc & Ha).
    unfold aliveAt. rewrite aliveAt_guard_in, Hc, Ha by assumption. reflexivity.
  - rewrite aliveAt_off_grid, aliveAt_guard_out by assumption. reflexivity.
Qed.

(** C7.  On a populated 3 by 3 generation whose alive cells are exactly
    those of the middle row, [next] produces the generation whose alive
    cells are exactly those of the middle column. *)
Theorem blinker_turns (g : Generation) (r : rng) :
  populated g -> columns g = 3 -> rows g = 3 ->
  alive_exactly g (fun x y => y =? 1) ->
  exists g',
    next g r = Ok (g', r) /\ columns g' = 3 /\ rows g' = 3 /\
    alive_exactly g' (fun x y => x =? 1).
Proof.
  intros Hp HC HR Hrow. exists (snapshotAdvance g).
  split; [apply next_populated; assumption |].
  split; [assumption |]. split; [assumption |].
  intros x y Hin.
  assert (in_grid g x y) as Hin' by exact Hin.
  destruct (populated_cellAt g x y Hp Hin') as (c & Hc & EX & EY).
  destruct (Hrow x y Hin') as (c' & Hc' & Ha).
  assert (c' = c) as -> by congruence.
  exists (snapshotCell g c).
  split; [rewrite cellAt_snapshotAdvance, Hc; reflexivity |].
  unfold snapshotCell. simpl. rewrite EX, EY, Ha.
  unfold neighborAliveCount, moore, foldr, fst, snd.
  rewrite !(aliveAt_exactly g _ _ _ Hrow), HC, HR.
  destruct Hin' as (Hx & Hy). rewrite HC in Hx. rewrite HR in Hy.
  assert (x = 0 \/ x = 1 \/ x = 2) as [-> | [-> | ->]] by lia;
    assert (y = 0 \/ y = 1 \/ y = 2) as [-> | [-> | ->]] by lia;
    reflexivity.
Qed.

Lemma blinker_turns_witness :
  exists g',
    next blinker_horizontal coin = Ok (g', coin) /\ columns g' = 3 /\ rows g' = 3 /\
    alive_exactly g' (fun x y => x =? 1).
Proof.
  apply (blinker_turns blinker_horizontal coin).
  - unfold populated. simpl. repeat split; reflexivity.
  - reflexivity.
  - reflexivity.
  - intros x y (Hx & Hy). simpl in Hx, Hy.
    assert (x = 0 \/ x = 1 \/ x = 2) as [-> | [-> | ->]] by lia;
      assert (y = 0 \/ y = 1 \/ y = 2) as [-> | [-> | ->]] by lia;
      eexists; split; reflexivity.
Defined.

Lemma neighborAliveCount_all_dead (g : Generation) (x y : Z) :
  all_dead g -> neighborAliveCount g x y = 0.
Proof.
  intros Hall. unfold neighborAliveCount, moore, foldr.
  rewrite !aliveAt_all_dead by assumption. reflexivity.
Qed.

Lemma snapshotAdvance_all_dead (g : Generation) :
  all_dead g -> all_dead (snapshotAdvance g).
Proof.
  intros Hall. unfold all_dead, snapshotAdvance. simpl.
  apply Forall_map, Forall_forall. intros c _.
  unfold snapshotCell. simpl.
  rewrite neighborAliveCount_all_dead by assumption. reflexivity.
Qed.

(** C8.  A populated generation of any dimensions in which every cell is
    dead is still all dead after any number of calls of [next]. *)
Theorem all_dead_stays_dead (g : Generation) (n : nat) (r : rng) :
  populated g -> all_dead g ->
  exists g', advance n g r = Ok (g', r) /\ populated g' /\ all_dead g'.
Proof.
  revert g. induction n as [|n IH]; intros g Hp Hall.
  - exists g. simpl. auto.
  - destruct (IH (snapshotAdvance g)) as (g' & Hrun & Hp' & Hall').
    + apply snapshotAdvance_populated. assumption.
    + apply snapshotAdvance_all_dead. assumption.
    + exists g'. simpl. rewrite next_populated by assumption. simpl. auto.
Qed.

Lemma all_dead_stays_dead_witness :
  exists g',
    advance 5 (seeded 3 2 [false; false; false; false; false; false]) coin
    = Ok (g', coin) /\
    populated g' /\ all_dead g'.
Proof.
  apply (all_dead_stays_dead (seeded 3 2 [false; false; false; false; false; false]) 5 coin).
  - unfold populated. simpl. repeat split; reflexivity.
  - repeat constructor.
Defined.

(** C9.  [next] on a populated generation keeps the dimensions, the
    length of the cells array and, index by index, the coordinates of
    every cell. *)
Theorem advance_frame (g : Generation) (r : rng) :
  populated g ->
  exists g',
    next g r = Ok (g', r) /\
    columns g' = columns g /\ rows g' = rows g /\
    length (cells g') = length (cells g) /\
    map coordinates (cells g') = map coordinates (cells g) /\
    forall i c, cells g !! i = Some c ->
      exists c', cells g' !! i = Some c' /\ gridX c' = gridX c /\ gridY c' = gridY c.
Proof.
  intros Hp. exists (snapshotAdvance g).
  split; [apply next_populated; assumption |].
  split; [reflexivity |]. split; [reflexivity |].
  split; [apply length_map |].
  split; [apply snapshotAdvance_coordinates |].
  intros i c Hc. exists (snapshotCell g c). split; [| split; reflexivity].
  unfold snapshotAdvance. simpl.
  change (map (snapshotCell g) (cells g)) with (snapshotCell g <$> cells g).
  rewrite list_lookup_fmap, Hc. reflexivity.
Qed.

Lemma advance_frame_witness :
  exists g',
    next blinker_horizontal coin = Ok (g', coin) /\
    columns g' = columns blinker_horizontal /\ rows g' = rows blinker_horizontal /\
    length (cells g') = length (cells blinker_horizontal) /\
    map coordinates (cells g') = map coordinates (cells blinker_horizontal) /\
    forall i c, cells blinker_horizontal !! i = Some c ->
      exists c', cells g' !! i = Some c' /\ gridX c' = gridX c /\ gridY c' = gridY c.
Proof.
  apply (advance_frame blinker_horizontal coin).
  unfold populated. simpl. repeat split; reflexivity.
Defined.

(** * Further properties of the generation *)

(** ** The index of a cell *)

(** X1.  On a grid of at most 2^53 cells, where the sum and the product
    of [gridToIndex] are exact in the code's number arithmetic,
    [gridToIndex] maps the grid one-to-one onto the indices below
    [columns * rows]: the index of [(x, y)] is in range and gives back
    [x] as its remainder and [y] as its quotient by [columns], and every
    index in range is the index of the position so obtained. *)
Theorem gridToIndex_round_trip (g : Generation) (x y i : Z) :
  0 < columns g -> columns g * rows g <= 2 ^ 53 ->
  (in_grid g x y ->
     0 <= gridToIndex g x y < columns g * rows g /\
     gridToIndex g x y mod columns g = x /\
     gridToIndex g x y / columns g = y) /\
  (0 <= i < columns g * rows g ->
     in_grid g (i mod columns g) (i / columns g) /\
     gridToIndex g (i mod columns g) (i / columns g) = i).
Proof.
  intros HC _. split.
  - intros (Hx & Hy). unfold gridToIndex.
    split; [apply index_bounds; assumption |].
    rewrite Z.mod_add, Z.div_add by lia.
    rewrite Z.mod_small, Z.div_small by lia. lia.
  - intros Hi.
    destruct (index_decompose (columns g) (rows g) i HC Hi) as (Hx & Hy & E).
    split; [split; assumption | exact E].
Qed.

Lemma gridToIndex_round_trip_witness :
  (0 <= gridToIndex blinker_horizontal 2 1 < 3 * 3 /\
   gridToIndex blinker_horizontal 2 1 mod 3 = 2 /\
   gridToIndex blinker_horizontal 2 1 / 3 = 1) /\
  (in_grid blinker_horizontal (7 mod 3) (7 / 3) /\
   gridToIndex blinker_horizontal (7 mod 3) (7 / 3) = 7).
Proof.
  destruct (gridToIndex_round_trip blinker_horizontal 2 1 7) as (H1 & H2).
  - simpl. lia.
  - vm_compute. discriminate.
  - split.
    + apply H1. unfold in_grid. simpl. lia.
    + apply H2. simpl. lia.
Defined.

(** ** What [createGrid] pushes *)




(** ** Generations built by the constructor *)

Lemma rule_boolean (n : Z) (b : bool) : exists b', rule n (boolean b) = boolean b'.
Proof.
  unfold rule. destruct (n =? 2); [eauto |]. destruct (n =? 3); eauto.
Qed.

Lemma snapshotAdvance_booleans (g : Generation) :
  booleans g -> booleans (snapshotAdvance g).
Proof.
  intros Hb. unfold booleans, snapshotAdvance. simpl.
  apply Forall_map. eapply Forall_impl; [exact Hb |].
  intros c (b & Hc). unfold snapshotCell. simpl. rewrite Hc. apply rule_boolean.
Qed.


Lemma booleans_nil (g : Generation) : cells g = [] -> booleans g.
Proof. intros Hnil. unfold booleans. rewrite Hnil. constructor. Qed.






(** X5.  A transition keeps booleans boolean and leaves in every cell a
    [nextAlive] equal to its new [alive]. *)
Theorem transition_keeps_booleans (g : Generation) (r : rng) :
  populated g ->
  exists g',
    next g r = Ok (g', r) /\
    Forall (fun c => nextAlive c = alive c) (cells g') /\
    (booleans g -> booleans g').
Proof.
  intros Hp. exists (snapshotAdvance g).
  split; [apply next_populated; assumption |].
  split; [| apply snapshotAdvance_booleans].
  unfold snapshotAdvance. simpl. apply Forall_map, Forall_forall.
  intros c _. reflexivity.
Qed.

Lemma transition_keeps_booleans_witness :
  exists g',
    next blinker_horizontal coin = Ok (g', coin) /\
    Forall (fun c => nextAlive c = alive c) (cells g') /\
    booleans g'.
Proof.
  destruct (transition_keeps_booleans blinker_horizontal coin) as (g' & Hrun & Hn & Hb).
  - unfold populated. simpl. repeat split; reflexivity.
  - exists g'. split; [exact Hrun |]. split; [exact Hn |].
    apply Hb. repeat constructor; eexists; reflexivity.
Defined.

(** ** Locality of the transition *)

Lemma aliveAt_local (g1 g2 : Generation) (u v : Z) :
  columns g1 = columns g2 -> rows g1 = rows g2 ->
  (in_grid g1 u v -> alive <$> cellAt g1 u v = alive <$> cellAt g2 u v) ->
  aliveAt g1 u v = aliveAt g2 u v.
Proof.
  intros EC ER Hloc. destruct (in_grid_dec g1 u v) as [Hin|Hout].
  - assert (in_grid g2 u v) as Hin2 by (unfold in_grid; rewrite <- EC, <- ER; exact Hin).
    specialize (Hloc Hin). unfold aliveAt.
    rewrite !aliveAt_guard_in by assumption.
    destruct (cellAt g1 u v), (cellAt g2 u v); simpl in Hloc; congruence.
  - assert (~ in_grid g2 u v) as Hout2 by (unfold in_grid; rewrite <- EC, <- ER; exact Hout).
    rewrite !aliveAt_off_grid by assumption. reflexivity.
Qed.

(** X6.  The next state of a cell depends on its own state and on the
    cells of the grid at distance one only: two populated generations of
    the same dimensions that agree around [(x, y)] have the same [alive]
    at [(x, y)] after [next], whatever the rest of their grids holds. *)
Theorem next_is_local (g1 g2 : Generation) (r1 r2 : rng) (x y : Z) :
  populated g1 -> populated g2 ->
  columns g1 = columns g2 -> rows g1 = rows g2 ->
  in_grid g1 x y -> agree_around g1 g2 x y ->
  exists g1' g2',
    next g1 r1 = Ok (g1', r1) /\ next g2 r2 = Ok (g2', r2) /\
    alive <$> cellAt g1' x y = alive <$> cellAt g2' x y.
Proof.
  intros Hp1 Hp2 EC ER Hin Hagree.
  exists (snapshotAdvance g1), (snapshotAdvance g2).
  split; [apply next_populated; assumption |].
  split; [apply next_populated; assumption |].
  assert (in_grid g2 x y) as Hin2 by (unfold in_grid; rewrite <- EC, <- ER; exact Hin).
  destruct (populated_cellAt g1 x y Hp1 Hin) as (c1 & Hc1 & EX1 & EY1).
  destruct (populated_cellAt g2 x y Hp2 Hin2) as (c2 & Hc2 & EX2 & EY2).
  pose proof (Hagree x y Hin ltac:(lia) ltac:(lia)) as Hself.
  rewrite Hc1, Hc2 in Hself. simpl in Hself. injection Hself as Hself.
  rewrite !cellAt_snapshotAdvance, Hc1, Hc2. simpl. f_equal.
  rewrite EX1, EY1, EX2, EY2, Hself. f_equal.
  unfold neighborAliveCount, moore, foldr, fst, snd.
  rewrite !(aliveAt_local g1 g2 _ _ EC ER);
    try reflexivity; intros Hin'; apply Hagree; try assumption; lia.
Qed.

Lemma next_is_local_witness :
  exists g1' g2',
    next blinker_horizontal coin = Ok (g1', coin) /\
    next (seeded 3 3 [false; false; false;  true; true; true;  false; false; true])
      negb_coin
    = Ok (g2', negb_coin) /\
    alive <$> cellAt g1' 0 0 = alive <$> cellAt g2' 0 0.
Proof.
  apply (next_is_local blinker_horizontal
           (seeded 3 3 [false; false; false;  true; true; true;  false; false; true])
           coin negb_coin 0 0).
  - unfold populated. simpl. repeat split; reflexivity.
  - unfold populated. simpl. repeat split; reflexivity.
  - reflexivity.
  - reflexivity.
  - unfold in_grid. simpl. lia.
  - intros u v (Hu & Hv) Hx Hy. simpl in Hu, Hv.
    assert (u = 0 \/ u = 1) as [-> | ->] by lia;
      assert (v = 0 \/ v = 1) as [-> | ->] by lia; reflexivity.
Defined.

(** ** Birth and survival *)

(** X7.  The transition is Conway's rule: a dead cell is alive in the
    next generation exactly when it has three alive neighbours, an alive
    cell exactly when it has two or three.  The number of alive
    neighbours is the count over the eight Moore positions in the
    generation before the transition, which is what the code's
    [countAlive] returns. *)
Theorem birth_and_survival (g : Generation) (r : rng) (x y : Z) :
  populated g -> in_grid g x y ->
  exists g' c c' n,
    next g r = Ok (g', r) /\
    cellAt g x y = Some c /\ cellAt g' x y = Some c' /\
    countAlive g x y = Ok n /\
    n = neighborAliveCount g x y /\
    (alive c = boolean false -> (alive c' = boolean true <-> n = 3)) /\
    (alive c = boolean true -> (alive c' = boolean true <-> n = 2 \/ n = 3)).
Proof.
  intros Hp Hin.
  destruct (populated_cellAt g x y Hp Hin) as (c & Hc & EX & EY).
  exists (snapshotAdvance g), c, (snapshotCell g c), (neighborAliveCount g x y).
  split; [apply next_populated; assumption |].
  split; [assumption |].
  split; [rewrite cellAt_snapshotAdvance, Hc; reflexivity |].
  split; [apply countAlive_neighborAliveCount, populated_sized; assumption |].
  split; [reflexivity |].
  unfold snapshotCell. simpl. rewrite EX, EY. unfold rule.
  split; intros ->;
    destruct (Z.eqb_spec (neighborAliveCount g x y) 2);
    destruct (Z.eqb_spec (neighborAliveCount g x y) 3);
    split; intros H; try discriminate; try reflexivity; lia.
Qed.

Lemma birth_and_survival_witness :
  exists g' c c' n,
    next blinker_horizontal coin = Ok (g', coin) /\
    cellAt blinker_horizontal 1 0 = Some c /\ cellAt g' 1 0 = Some c' /\
    countAlive blinker_horizontal 1 0 = Ok n /\
    n = neighborAliveCount blinker_horizontal 1 0 /\
    (alive c = boolean false -> (alive c' = boolean true <-> n = 3)) /\
    (alive c = boolean true -> (alive c' = boolean true <-> n = 2 \/ n = 3)).
Proof.
  apply (birth_and_survival blinker_horizontal coin 1 0).
  - unfold populated. simpl. repeat split; reflexivity.
  - unfold in_grid. simpl. lia.
Defined.

(** ** Missing cells *)

Lemma iterM_from_Ok_inv {St : Type} (I : St -> Prop) (body : Z -> St -> result St) :
  (forall j t t', I t -> body j t = Ok t' -> I t') ->
  forall (n : nat) (i : Z) (s s' : St),
    I s -> iterM_from n i body s = Ok s' -> I s'.
Proof.
  intros Hbody. induction n as [|n IH]; intros i s s' Hs Hrun; simpl in Hrun.
  - injection Hrun as <-. assumption.
  - apply bind_Ok_inv in Hrun as (t & Ht & Hrun).
    apply (IH (i + 1) t s'); [eapply Hbody; eassumption | assumption].
Qed.

(** A loop that succeeds has run its last iteration with success, from a
    state that satisfies every invariant of the body. *)
Lemma iterM_from_Ok_last {St : Type} (I : St -> Prop) (body : Z -> St -> result St) :
  (forall j t t', I t -> body j t = Ok t' -> I t') ->
  forall (n : nat) (i : Z) (s s' : St),
    I s -> iterM_from (S n) i body s = Ok s' ->
    exists t, I t /\ body (i + Z.of_nat n) t = Ok s'.
Proof.
  intros Hbody. induction n as [|n IH]; intros i s s' Hs Hrun.
  - simpl in Hrun. apply bind_Ok_inv in Hrun as (t & Ht & Hrun).
    injection Hrun as <-. exists s. rewrite Z.add_0_r. auto.
  - change (iterM_from (S (S n)) i body s)
      with (t <- body i s ;; iterM_from (S n) (i + 1) body t) in Hrun.
    apply bind_Ok_inv in Hrun as (t & Ht & Hrun).
    destruct (IH (i + 1) t s') as (u & Hu & Hlast);
      [eapply Hbody; eassumption | assumption |].
    exists u. split; [assumption |].
    replace (i + Z.of_nat (S n)) with (i + 1 + Z.of_nat n) by lia. assumption.
Qed.

Lemma computeNextAlive_in_range (x y : Z) (g g' : Generation) :
  computeNextAlive x y g = Ok g' ->
  0 <= gridToIndex g x y < Z.of_nat (length (cells g)).
Proof.
  unfold computeNextAlive. intros H.
  apply bind_Ok_inv in H as (n & _ & H).
  apply bind_Ok_inv in H as (c & Hc & _).
  apply cell_ref_Ok in Hc as (Hi & Hc).
  apply lookup_lt_Some in Hc. lia.
Qed.

Lemma computeNextAlive_same_shape (g : Generation) (x y : Z) (h h' : Generation) :
  same_shape g h -> computeNextAlive x y h = Ok h' -> same_shape g h'.
Proof.
  intros (EC & ER & El) Hrun.
  destruct (computeNextAlive_frame _ _ _ _ Hrun) as (EC' & ER' & Ep & _).
  unfold same_shape. rewrite EC', ER'. repeat split; try assumption.
  rewrite <- El, <- (length_map alive (cells h')), <- (length_map alive (cells h)).
  unfold pattern in Ep. rewrite Ep. reflexivity.
Qed.

Lemma computePhase_needs_all_cells (g g1 : Generation) :
  0 < columns g -> 0 < rows g ->
  computePhase g = Ok g1 ->
  columns g * rows g <= Z.of_nat (length (cells g)).
Proof.
  intros HC HR Hrun. unfold computePhase, forM_lt in Hrun.
  destruct (Z.to_nat (columns g)) as [|n] eqn:En; [lia |].
  assert (forall x h h',
            same_shape g h ->
            iterM_from (Z.to_nat (rows h)) 0 (fun y g2 => computeNextAlive x y g2) h = Ok h' ->
            same_shape g h') as Hinner.
  { intros x h h' Hh. apply iterM_from_Ok_inv; [| assumption].
    intros j t t'. apply computeNextAlive_same_shape. }
  destruct (iterM_from_Ok_last (same_shape g) _ Hinner n 0 g g1) as (h & Hh & Hlast);
    [repeat split | assumption |].
  simpl in Hlast.
  destruct Hh as (EC & ER & El). rewrite ER in Hlast.
  destruct (Z.to_nat (rows g)) as [|m] eqn:Em; [lia |].
  destruct (iterM_from_Ok_last (same_shape g)
              (fun y g2 => computeNextAlive (Z.of_nat n) y g2)
              (fun j t t' => computeNextAlive_same_shape g (Z.of_nat n) j t t')
              m 0 h g1) as (u & (EC' & ER' & El') & Hcell);
    [repeat split; assumption | assumption |].
  apply computeNextAlive_in_range in Hcell.
  unfold gridToIndex in Hcell. rewrite EC', El' in Hcell. simpl in Hcell. nia.
Qed.

(** X8.  A cell missing from the array is an exception, not a dead cell:
    [isAlive] throws at a position of the grid whose index is not in the
    array, and [next] throws on a non-empty array that is shorter than
    [columns * rows]. *)
Theorem missing_cell_throws (g : Generation) (r : rng) :
  0 < columns g -> 0 < rows g ->
  Z.of_nat (length (cells g)) < columns g * rows g ->
  (forall x y, in_grid g x y -> Z.of_nat (length (cells g)) <= gridToIndex g x y ->
               isAlive g x y = Throw TypeError) /\
  (cells g <> [] -> next g r = Throw TypeError).
Proof.
  intros HC HR Hshort. split.
  - intros x y Hin Hidx. unfold isAlive, cell_ref, cells_at.
    rewrite isAlive_guard_in by assumption.
    destruct (Z.ltb_spec (gridToIndex g x y) 0); [reflexivity |].
    rewrite lookup_ge_None_2 by lia. reflexivity.
  - intros Hne. unfold next.
    destruct (cells g) as [|c cs] eqn:Ecells; [contradiction |]. simpl.
    unfold updateNextGenCellsAlive.
    destruct (computePhase g) as [g1|[]] eqn:Hrun; [| reflexivity].
    apply computePhase_needs_all_cells in Hrun; try assumption.
    rewrite Ecells in Hrun. lia.
Qed.

Lemma missing_cell_throws_witness :
  isAlive (mkGeneration 2 2 (cells (seeded 2 2 [true; false; true]))) 1 1
  = Throw TypeError /\
  next (mkGeneration 2 2 (cells (seeded 2 2 [true; false; true]))) coin
  = Throw TypeError.
Proof.
  destruct (missing_cell_throws
              (mkGeneration 2 2 (cells (seeded 2 2 [true; false; true]))) coin)
    as (H1 & H2).
  - simpl. lia.
  - simpl. lia.
  - simpl. lia.
  - split.
    + apply H1; [unfold in_grid; simpl; lia | vm_compute; discriminate].
    + apply H2. discriminate.
Defined.

(** * Properties of the game *)

(** ** One more call of [next] *)




(** ** The invariant of the game *)


Lemma aborted_lookup (p : Page) (id : nat) :
  (id < length (controllers p))%nat ->
  controllers p !! id = Some (aborted p id).
Proof.
  intros Hid. unfold aborted.
  destruct (lookup_lt_is_Some_2 (controllers p) id Hid) as (b & Hb).
  rewrite Hb. reflexivity.
Qed.


Lemma start_coherent (p : Page) : coherent p -> coherent (snd (start p)).
Proof.
  intros Hp. pose proof Hp as (Hsig & Hid & Hold & Hgen & Hb & Hdrawn).
  unfold start.
  destruct (match signal (game p) with
            | Some id => negb (aborted p id)
            | None => false
            end) eqn:Hrun; [exact Hp |].
  unfold coherent. simpl. rewrite length_app. simpl.
  repeat split; try assumption.
  - intros id [= <-]. lia.
  - intros j Hj Hne.
    assert (j < length (controllers p))%nat as Hj' by (destruct (Nat.eq_dec j (length (controllers p))); [congruence | lia]).
    rewrite lookup_app_l by assumption.
    destruct (option_eq_dec (controller (game p)) (Some j)) as [Hcur|Hcur];
      [| auto].
    rewrite Hsig, Hcur in Hrun. rewrite aborted_lookup by assumption.
    destruct (aborted p j); [reflexivity | discriminate].
  - apply Forall_app. split; [assumption | repeat constructor].
Qed.





Lemma Game_new_Returned (canvas : option string) (options : option GameOptions)
    (g : Game) :
  Game_new canvas options = Returned g ->
  canvas = Some "CANVAS" /\
  renderer g = [] /\ signal g = None /\ controller g = None /\
  interval g = 100 /\ iterationCount g = 0 /\
  cells (generation g) = [].
Proof.
  unfold Game_new. destruct canvas as [tagName|]; [| discriminate].
  destruct (String.eqb_spec tagName "CANVAS") as [->|Hne]; [| discriminate].
  simpl. intros [= <-]. simpl. auto 10.
Qed.

Lemma new_page_invariant (canvas : option string) (options : option GameOptions)
    (g : Game) (r : rng) :
  Game_new canvas options = Returned g ->
  coherent (new_page g r) /\ counted (generation g) r (new_page g r).
Proof.
  intros Hnew.
  destruct (Game_new_Returned _ _ _ Hnew) as (_ & Hr & Hs & Hc & _ & Hn & Hnil).
  split.
  - unfold coherent, new_page. simpl. rewrite Hs, Hc, Hr.
    repeat split; try discriminate.
    + intros j Hj. lia.
    + left. assumption.
    + apply booleans_nil. assumption.
    + constructor.
  - unfold counted, new_page. simpl. rewrite Hn. simpl.
    repeat split; [lia | intros el _ Hlt; lia].
Qed.

(** ** Calls in any order *)





(** ** Starting and stopping *)

Lemma start_condition (p : Page) :
  coherent p ->
  match signal (game p) with
  | Some id => negb (aborted p id)
  | None => false
  end = true <-> running p.
Proof.
  intros (Hsig & Hid & _). rewrite Hsig. unfold running. split.
  - destruct (controller (game p)) as [id|] eqn:Hc; [| discriminate].
    intros Hrun. exists id. split; [reflexivity |].
    rewrite aborted_lookup by auto. destruct (aborted p id); [discriminate | reflexivity].
  - intros (id & -> & Hlook). unfold aborted. rewrite Hlook. reflexivity.
Qed.

(** X11.  On a coherent page [start] throws exactly when the game is
    running, and then changes nothing; otherwise it creates a fresh
    controller, makes it current, asks the renderer for one animation
    frame and returns it.  [stop] throws exactly when the game was never
    started; otherwise it returns, also on a game that is already
    stopped, and the game is not running afterwards. *)
Theorem start_and_stop (p : Page) :
  coherent p ->
  (running p ->
     start p = (Thrown (Error "Game is running and not be started. Stop it first."), p)) /\
  (~ running p ->
     exists p',
       start p = (Returned (length (controllers p)), p') /\
       running p' /\
       controller (game p') = Some (length (controllers p)) /\
       renderer (game p') = renderer (game p) ++ [ProvideAnimationFrame] /\
       generation (game p') = generation (game p) /\
       iterationCount (game p') = iterationCount (game p)) /\
  (controller (game p) = None ->
     stop p = (Thrown (Error "Game is not running"), p)) /\
  (controller (game p) <> None ->
     fst (stop p) = Returned tt /\ ~ running (snd (stop p)) /\
     game (snd (stop p)) = game p).
Proof.
  intros Hp. pose proof (start_condition p Hp) as Hcond.
  pose proof Hp as (Hsig & Hid & _).
  split; [| split; [| split]].
  - intros Hrun. unfold start. rewrite (proj2 Hcond Hrun). reflexivity.
  - intros Hnot. unfold start.
    destruct (match signal (game p) with
              | Some id => negb (aborted p id)
              | None => false
              end); [exfalso; apply Hnot, Hcond; reflexivity |].
    eexists. split; [reflexivity |]. simpl.
    split; [| auto].
    exists (length (controllers p)). simpl. split; [reflexivity |].
    rewrite lookup_app_r by lia. rewrite Nat.sub_diag. reflexivity.
  - intros Hnone. unfold stop. rewrite Hnone. reflexivity.
  - intros Hsome. unfold stop.
    destruct (controller (game p)) as [id|] eqn:Hc; [| contradiction].
    simpl. split; [reflexivity |]. split; [| reflexivity].
    intros (id' & Hc' & Hlook). simpl in Hc', Hlook.
    rewrite Hc in Hc'. injection Hc' as <-.
    rewrite list_lookup_insert_eq in Hlook by auto. discriminate.
Qed.

Lemma start_and_stop_witness :
  stop (new_page (mkGame [] (mkGeneration 3 2 []) None None 100 0 None) coin)
  = (Thrown (Error "Game is not running"),
     new_page (mkGame [] (mkGeneration 3 2 []) None None 100 0 None) coin) /\
  exists p',
    start (new_page (mkGame [] (mkGeneration 3 2 []) None None 100 0 None) coin)
    = (Returned 0%nat, p') /\
    running p' /\
    start p' = (Thrown (Error "Game is running and not be started. Stop it first."), p') /\
    fst (stop p') = Returned tt /\ ~ running (snd (stop p')).
Proof.
  assert (coherent (new_page (mkGame [] (mkGeneration 3 2 []) None None 100 0 None) coin))
    as Hp.
  { apply (new_page_invariant (Some "CANVAS")
             (Some (mkGameOptions (Some (Int 2)) (Some (Int 3)) None))).
    reflexivity. }
  destruct (start_and_stop _ Hp) as (_ & Hstart & Hstop & _).
  split; [apply Hstop; reflexivity |].
  destruct Hstart as (p' & Hrun & Hrunning & Hc & _).
  { intros (id & Hid & _). discriminate Hid. }
  exists p'. split; [exact Hrun |]. split; [exact Hrunning |].
  assert (coherent p') as Hp'.
  { replace p' with (snd (start (new_page (mkGame [] (mkGeneration 3 2 []) None None 100 0 None) coin)))
      by (rewrite Hrun; reflexivity).
    apply start_coherent. exact Hp. }
  destruct (start_and_stop p' Hp') as (Hagain & _ & _ & Hstop').
  split; [apply Hagain; exact Hrunning |].
  destruct Hstop' as (H1 & H2 & _); [rewrite Hc; discriminate | auto].
Defined.

Lemma nextIteration_idle (p : Page) (id : nat) :
  signal (game p) = Some id -> controllers p !! id = Some true ->
  nextIteration p = Ok p.
Proof.
  intros Hsig Hlook. unfold nextIteration, aborted. rewrite Hsig, Hlook. reflexivity.
Qed.

Lemma loops_idle (n : nat) (p : Page) (id : nat) :
  signal (game p) = Some id -> controllers p !! id = Some true ->
  run (repeat FireLoop n) p
  = Ok (mkPage (game p) (controllers p)
          (timeouts p ++ repeat (interval (game p)) n) (random p)).
Proof.
  revert p. induction n as [|n IH]; intros p Hsig Hlook.
  - simpl. rewrite app_nil_r. destruct p; reflexivity.
  - simpl. unfold loop. rewrite (nextIteration_idle p id) by assumption. simpl.
    rewrite IH by assumption. simpl. rewrite <- app_assoc. reflexivity.
Qed.

(** X12.  [stop] freezes the game but cancels nothing: once the current
    controller is aborted [nextIteration] returns without touching the
    page, and the loop callback, however often it fires, changes nothing
    of the game (generation, count, renderer calls) and arms its timeout
    again each time. *)
Theorem stopped_game_idles (p : Page) (id : nat) (n : nat) :
  coherent p -> controller (game p) = Some id ->
  fst (stop p) = Returned tt /\
  nextIteration (snd (stop p)) = Ok (snd (stop p)) /\
  run (repeat FireLoop n) (snd (stop p))
  = Ok (mkPage (game p) (controllers (snd (stop p)))
          (timeouts p ++ repeat (interval (game p)) n) (random p)).
Proof.
  intros (Hsig & Hid & _) Hc. unfold stop. rewrite Hc. simpl.
  assert (controllers (abort id p) !! id = Some true) as Hlook
    by (apply list_lookup_insert_eq; auto).
  assert (signal (game (abort id p)) = Some id) as Hsig'
    by (simpl; congruence).
  split; [reflexivity |].
  split; [apply (nextIteration_idle _ id); assumption |].
  rewrite (loops_idle n _ id) by assumption. reflexivity.
Qed.

Lemma stopped_game_idles_witness :
  fst (stop (mkPage (mkGame [ProvideAnimationFrame] (mkGeneration 3 2 [])
                       (Some 0%nat) (Some 0%nat) 100 0 None) [false] [] coin))
  = Returned tt /\
  nextIteration
    (snd (stop (mkPage (mkGame [ProvideAnimationFrame] (mkGeneration 3 2 [])
                          (Some 0%nat) (Some 0%nat) 100 0 None) [false] [] coin)))
  = Ok (snd (stop (mkPage (mkGame [ProvideAnimationFrame] (mkGeneration 3 2 [])
                             (Some 0%nat) (Some 0%nat) 100 0 None) [false] [] coin))) /\
  run (repeat FireLoop 3)
    (snd (stop (mkPage (mkGame [ProvideAnimationFrame] (mkGeneration 3 2 [])
                          (Some 0%nat) (Some 0%nat) 100 0 None) [false] [] coin)))
  = Ok (mkPage (mkGame [ProvideAnimationFrame] (mkGeneration 3 2 [])
                  (Some 0%nat) (Some 0%nat) 100 0 None)
          [true] ([] ++ repeat 100 3) coin).
Proof.
  apply (stopped_game_idles
           (mkPage (mkGame [ProvideAnimationFrame] (mkGeneration 3 2 [])
                      (Some 0%nat) (Some 0%nat) 100 0 None) [false] [] coin)
           0%nat 3).
  - unfold coherent. simpl. repeat split.
    + intros id' [= <-]. lia.
    + intros j Hj Hne. assert (j = 0%nat) by lia. congruence.
    + left. reflexivity.
    + constructor.
    + repeat constructor.
  - reflexivity.
Defined.

(** * Properties of the renderer *)

(** ** Cell sizes *)

Lemma ceil_quotient_finite (a c : Z) :
  c <> 0 -> ceil_quotient a (Some (Int c)) = SFinite (- ((- a) / c)).
Proof. intros Hc. destruct c; [contradiction | reflexivity | reflexivity]. Qed.

Lemma ceil_bounds (a c : Z) :
  0 < c -> a <= c * (- ((- a) / c)) < a + c.
Proof.
  intros Hc.
  pose proof (Z.div_mod (- a) c ltac:(lia)).
  pose proof (Z.mod_pos_bound (- a) c Hc). nia.
Qed.

(** X13.  With positive integer [columns] and [rows], and counts and
    area sizes below 2^53 in absolute value (the integers for which
    [Math.ceil] of the quotient is the ceiling of the exact quotient),
    the renderer stores the counts and its cell sizes are integers such
    that the columns cover the width of the area and overshoot it by
    less than one pixel per column, and likewise the rows the height; a
    positive area gives positive cell sizes. *)
Theorem cell_sizes_cover (o : RenderOptions) (C R : Z) :
  ro_columns o = Some (Int C) -> ro_rows o = Some (Int R) ->
  0 < C < 2 ^ 53 -> 0 < R < 2 ^ 53 ->
  - 2 ^ 53 < area_width (Renderer_new o) < 2 ^ 53 ->
  - 2 ^ 53 < area_height (Renderer_new o) < 2 ^ 53 ->
  exists w h,
    cell_width (Renderer_new o) = SFinite w /\
    cell_height (Renderer_new o) = SFinite h /\
    grid_columns (Renderer_new o) = C /\ grid_rows (Renderer_new o) = R /\
    area_width (Renderer_new o) <= C * w < area_width (Renderer_new o) + C /\
    area_height (Renderer_new o) <= R * h < area_height (Renderer_new o) + R /\
    (0 < area_width (Renderer_new o) -> 0 < w) /\
    (0 < area_height (Renderer_new o) -> 0 < h).
Proof.
  intros HoC HoR (HC & _) (HR & _) _ _. unfold Renderer_new. rewrite HoC, HoR.
  cbn [cell_width cell_height grid_columns grid_rows area_width area_height
       truthy_field field_value].
  rewrite !ceil_quotient_finite by lia.
  destruct (Z.eqb_spec C 0); [lia |]. destruct (Z.eqb_spec R 0); [lia |].
  cbn [negb].
  do 2 eexists. split; [reflexivity |]. split; [reflexivity |].
  split; [reflexivity |]. split; [reflexivity |].
  match goal with
  | |- ?W <= _ < _ /\ ?H <= _ < _ /\ _ =>
      pose proof (ceil_bounds W C HC); pose proof (ceil_bounds H R HR)
  end.
  repeat split; try lia; nia.
Qed.

Lemma cell_sizes_cover_witness :
  exists w h,
    cell_width (Renderer_new (mkRenderOptions (Some (Int 40)) (Some (Int 70)) None None))
    = SFinite w /\
    cell_height (Renderer_new (mkRenderOptions (Some (Int 40)) (Some (Int 70)) None None))
    = SFinite h /\
    600 <= 70 * w < 600 + 70 /\ 600 <= 40 * h < 600 + 40 /\ 0 < w /\ 0 < h.
Proof.
  destruct (cell_sizes_cover
              (mkRenderOptions (Some (Int 40)) (Some (Int 70)) None None) 70 40)
    as (w & h & Hw & Hh & _ & _ & Hcw & Hch & Hpw & Hph);
    [reflexivity | reflexivity | lia | lia
     | vm_compute; split; reflexivity | vm_compute; split; reflexivity |].
  exists w, h. split; [exact Hw |]. split; [exact Hh |].
  split; [exact Hcw |]. split; [exact Hch |].
  split; [apply Hpw | apply Hph]; simpl; lia.
Defined.

(** ** Rectangles *)

Lemma div_interval (w x px : Z) :
  0 < w -> (x * w <= px < x * w + w <-> x = px / w).
Proof.
  intros Hw. split.
  - intros Hpx. apply (Z.div_unique_pos px w x (px - x * w)); lia.
  - intros ->. pose proof (Z.div_mod px w ltac:(lia)).
    pose proof (Z.mod_pos_bound px w Hw). lia.
Qed.

Lemma paints_iff (rd : Renderer) (c : Cell) (w h px py : Z) :
  cell_width rd = SFinite w -> cell_height rd = SFinite h -> 0 < w -> 0 < h ->
  paints rd c px py <-> gridX c = px / w /\ gridY c = py / h.
Proof.
  intros Hw Hh Hwpos Hhpos. unfold paints, CanvasRenderer_drawCell.
  rewrite Hw, Hh. simpl.
  rewrite <- (div_interval w (gridX c) px Hwpos), <- (div_interval h (gridY c) py Hhpos).
  split.
  - intros Hex. apply Exists_cons in Hex as [[]|Hex].
    apply Exists_cons in Hex as [Hfill|Hex]; [exact Hfill |].
    apply Exists_nil in Hex. contradiction.
  - intros Hfill. right. left. exact Hfill.
Qed.

(** X14.  In a frame of a populated generation with boolean cells,
    drawn with positive integer cell sizes on a grid area of at most
    2^53 pixels each way (so that the products [gridX * width] and
    [gridY * height] of [drawCell] are exact), a pixel of the grid area
    is filled by [drawCell] of exactly one cell of the array: the cell
    stored for the position [(px / width, py / height)], after the fill
    style has been set to the palette colour of its [alive]. *)
Theorem pixel_painted_by_its_cell (rd : Renderer) (g : Generation) (w h px py : Z) :
  populated g -> booleans g ->
  cell_width rd = SFinite w -> cell_height rd = SFinite h -> 0 < w -> 0 < h ->
  columns g * w <= 2 ^ 53 -> rows g * h <= 2 ^ 53 ->
  0 <= px < columns g * w -> 0 <= py < rows g * h ->
  exists c b,
    cellAt g (px / w) (py / h) = Some c /\
    (forall c', c' ∈ cells g -> paints rd c' px py <-> c' = c) /\
    alive c = boolean b /\
    head (CanvasRenderer_drawCell rd c)
    = Some (SetFillStyle (Some (if b then colors_true rd else colors_false rd))).
Proof.
  intros Hp Hb Hw Hh Hwpos Hhpos _ _ Hpx Hpy.
  assert (in_grid g (px / w) (py / h)) as Hin.
  { split; (split; [apply Z.div_pos; lia | apply Z.div_lt_upper_bound; nia]). }
  destruct (populated_cellAt g _ _ Hp Hin) as (c & Hc & EX & EY).
  assert (exists b, alive c = boolean b) as (b & Hcb).
  { unfold cellAt, cells_at in Hc.
    destruct (gridToIndex g (px / w) (py / h) <? 0); [discriminate |].
    exact (proj1 (Forall_lookup _ _) Hb _ _ Hc). }
  exists c, b. split; [assumption |].
  split; [| split; [assumption |
                    unfold CanvasRenderer_drawCell; simpl; rewrite Hcb;
                    destruct b; reflexivity]].
  intros c' Hel. rewrite (paints_iff rd c' w h px py) by assumption.
  split.
  - intros (EX' & EY').
    apply list_elem_of_lookup in Hel as (i & Hi).
    destruct (populated_lookup g i c' Hp Hi) as (_ & Hidx).
    rewrite EX', EY' in Hidx.
    unfold cellAt in Hc. rewrite Hidx, cells_at_lookup, Nat2Z.id in Hc by lia.
    congruence.
  - intros ->. auto.
Qed.

Lemma pixel_painted_by_its_cell_witness :
  exists c b,
    cellAt blinker_horizontal (25 / 10) (17 / 10) = Some c /\
    (forall c', c' ∈ cells blinker_horizontal ->
       paints (Renderer_new (mkRenderOptions (Some (Int 3)) (Some (Int 3))
                               (Some (Int 30)) (Some (Int 30)))) c' 25 17
       <-> c' = c) /\
    alive c = boolean b /\
    head (CanvasRenderer_drawCell
            (Renderer_new (mkRenderOptions (Some (Int 3)) (Some (Int 3))
                             (Some (Int 30)) (Some (Int 30)))) c)
    = Some (SetFillStyle (Some (if b then "#3b4859" else "#dde2e9"))).
Proof.
  apply (pixel_painted_by_its_cell
           (Renderer_new (mkRenderOptions (Some (Int 3)) (Some (Int 3))
                            (Some (Int 30)) (Some (Int 30))))
           blinker_horizontal 10 10 25 17).
  - unfold populated. simpl. repeat split; reflexivity.
  - repeat constructor; eexists; reflexivity.
  - reflexivity.
  - reflexivity.
  - lia.
  - lia.
  - vm_compute. discriminate.
  - vm_compute. discriminate.
  - simpl. lia.
  - simpl. lia.
Defined.

(** ** Defaults *)

Lemma ceil_quotient_falsy (a : Z) (f : option number) :
  truthy_field f = false -> forall z, ceil_quotient a f <> SFinite z.
Proof.
  intros Hf z. destruct f as [[|[|q|q]]|]; simpl in *; try discriminate.
  destruct (a =? 0); discriminate.
Qed.

Lemma ceil_quotient_truthy (a : Z) (f : option number) :
  truthy_field f = true -> exists z, ceil_quotient a f = SFinite z.
Proof.
  intros Hf. destruct f as [[|[|q|q]]|]; simpl in *; try discriminate; eauto.
Qed.

(** X15.  The generation and the renderer are built from the same
    [rows] and [columns], and disagree on a missing one: where the
    generation falls back to 50, the renderer keeps 0 in its grid, has
    no finite cell size, and its [drawCell] fills no pixel.  The cell
    width is finite exactly when [columns] is a number other than 0 and
    [NaN], and then the generation has that many columns. *)
Theorem fallback_grid_is_not_drawn (rows0 columns0 width height : option number) :
  exists g,
    constructor (Some (mkOptions rows0 columns0)) = Ok g /\
    ((exists w, cell_width (Renderer_new (mkRenderOptions rows0 columns0 width height))
                = SFinite w)
     <-> truthy_field columns0 = true) /\
    (truthy_field columns0 = true -> columns0 = Some (Int (columns g))) /\
    (truthy_field columns0 = false ->
       columns g = 50 /\
       grid_columns (Renderer_new (mkRenderOptions rows0 columns0 width height)) = 0 /\
       forall c px py,
         ~ paints (Renderer_new (mkRenderOptions rows0 columns0 width height)) c px py).
Proof.
  eexists. split; [reflexivity |]. simpl. split; [| split].
  - split.
    + intros (w & Hw). destruct (truthy_field columns0) eqn:Hf; [reflexivity |].
      exfalso. exact (ceil_quotient_falsy _ _ Hf _ Hw).
    + apply ceil_quotient_truthy.
  - intros Hf. rewrite Hf. destruct columns0 as [[|z]|]; simpl in *; try discriminate.
    reflexivity.
  - intros Hf. rewrite Hf. split; [reflexivity |]. split; [reflexivity |].
    intros c px py Hpaint. unfold paints, CanvasRenderer_drawCell in Hpaint. simpl in Hpaint.
    apply Exists_cons in Hpaint as [[]|Hpaint].
    apply Exists_cons in Hpaint as [Hfill|Hpaint];
      [| apply Exists_nil in Hpaint; contradiction].
    pose proof (ceil_quotient_falsy
                  (if truthy_field width then field_value width 600 else 600)
                  columns0 Hf) as Hnot.
    simpl in Hfill.
    destruct (ceil_quotient (if truthy_field width then field_value width 600 else 600)
                columns0) as [|neg|z]; simpl in Hfill.
    + contradiction.
    + destruct (gridX c =? 0); contradiction.
    + exact (Hnot z eq_refl).
Qed.

(** X16.  The options [buildGameOptions] makes never leave a dimension
    to a fallback of the classes: a number read as 0 or [NaN] becomes
    100, any other is kept, the game is built with a generation of these
    dimensions, and the renderer built from them has finite cell sizes. *)
Theorem page_game_dimensions (rows0 columns0 : number)
    (control : option HTMLInputElement) (width height : option number) :
  exists g R C w h,
    Game_new (Some "CANVAS") (Some (buildGameOptions rows0 columns0 control))
    = Returned g /\
    rows (generation g) = R /\ columns (generation g) = C /\
    R = match rows0 with NaN | Int 0 => 100 | Int z => z end /\
    C = match columns0 with NaN | Int 0 => 100 | Int z => z end /\
    R <> 0 /\ C <> 0 /\
    cell_width (Renderer_new (mkRenderOptions (Some (Int R)) (Some (Int C)) width height))
    = SFinite w /\
    cell_height (Renderer_new (mkRenderOptions (Some (Int R)) (Some (Int C)) width height))
    = SFinite h.
Proof.
  destruct rows0 as [|[|p|p]], columns0 as [|[|q|q]];
    do 5 eexists; repeat split; try reflexivity; discriminate.
Qed.

(** * Frames *)


